(** * The TapeImage (TIF) reader of layered-file-protocols: src/tapeimage.cpp

    A shallow embedding of the reader and the properties of its
    specification.  Every C++ class becomes a module ([address_map],
    [record_index], [read_head], [tapeimage]); member functions keep their
    names.  Mutable members are a record threaded through a small
    state-and-exception monad whose failures keep the state reached when
    the exception left the function, because a C++ [throw] does not undo
    the assignments made before it.

    Integers.  [std::int64_t] values are [Z] with no reduction applied:
    the offsets of a 32-bit tape image stay far from the 64-bit bounds.
    [std::uint32_t] header fields are [Z] in [0, 2^32); the two places
    where the source adds or subtracts in unsigned 32-bit arithmetic go
    through [wrap32].  The address map takes the record position as an
    [int] and multiplies it by [header::size] in [int]; that conversion,
    sum and product go through [wrap_int], the two's-complement result
    of the compiled code. *)

From Stdlib Require Import ZArith List Lia Bool.
From Stdlib Require Import Strings.Byte.
Import ListNotations.
Local Open Scope Z_scope.

Set Implicit Arguments.

(** ** Status codes and exceptions *)

(** Modelled from the spec: the status codes of lfp/protocol.hpp, which is
    not part of the sources at hand.  Only the names used by tapeimage.cpp
    and the error kinds of the specification are listed; [LFP_OK] is the
    zero value, the one an [if (status)] test takes for false. *)
Inductive lfp_status : Type :=
  | LFP_OK
  | LFP_OKINCOMPLETE
  | LFP_NOTIMPLEMENTED
  | LFP_PROTOCOL_FATAL_ERROR
  | LFP_PROTOCOL_TRYRECOVERY
  | LFP_PROTOCOL_FAILEDRECOVERY
  | LFP_IOERROR
  | LFP_RUNTIME_ERROR
  | LFP_INVALID_ARGS
  | LFP_EOF
  | LFP_UNEXPECTED_EOF.

(** [if (status)] in the source: true for every status but [LFP_OK]. *)
Definition status_set (st : lfp_status) : bool :=
  match st with LFP_OK => false | _ => true end.

(** The exceptions thrown by tapeimage.cpp, and [inner_error] for whatever
    the inner protocol throws from [seek]. *)
Inductive exception : Type :=
  | invalid_args
  | unexpected_eof
  | protocol_failed_recovery
  | protocol_fatal
  | not_implemented
  | runtime_error
  | logic_error
  | invalid_argument
  | inner_error.

(** ** The state-and-exception monad *)

Inductive outcome (St A : Type) : Type :=
  | Return (a : A) (s : St)
  | Throw (e : exception) (s : St)
  | OutOfFuel.

Arguments Return {St A} a s.
Arguments Throw {St A} e s.
Arguments OutOfFuel {St A}.

Definition M (St A : Type) : Type := St -> outcome St A.

Definition ret {St A} (a : A) : M St A := fun s => Return a s.

Definition bind {St A B} (m : M St A) (k : A -> M St B) : M St B :=
  fun s =>
    match m s with
    | Return a s' => k a s'
    | Throw e s' => Throw e s'
    | OutOfFuel => OutOfFuel
    end.

Definition throw {St A} (e : exception) : M St A := fun s => Throw e s.
Definition out_of_fuel {St A} : M St A := fun _ => OutOfFuel.
Definition gets {St A} (f : St -> A) : M St A := fun s => Return (f s) s.
Definition modify {St} (f : St -> St) : M St unit := fun s => Return tt (f s).

Declare Scope tif_scope.
Delimit Scope tif_scope with tif.
Notation "x <- m ;; k" := (bind m (fun x => k))
  (at level 61, m at next level, right associativity) : tif_scope.
Notation "m ;;; k" := (bind m (fun _ => k))
  (at level 61, right associativity) : tif_scope.
Local Open Scope tif_scope.

(** ** Headers *)

Record header : Type := mkheader {
  type : Z;   (* std::uint32_t *)
  prev : Z;   (* std::uint32_t *)
  next : Z    (* std::uint32_t *)
}.

(** [header::size] *)
Definition header_size : Z := 12.

Definition uint32_max : Z := 4294967295.

(** Unsigned 32-bit reduction. *)
Definition wrap32 (x : Z) : Z := x mod 4294967296.

(** Two's-complement reduction to a 32-bit [int]. *)
Definition wrap_int (x : Z) : Z := (x + 2147483648) mod 4294967296 - 2147483648.

(** The value read when an iterator is dereferenced outside the vector
    (undefined behaviour in the source). *)
Definition header0 : header := mkheader 0 0 0.

Definition with_type (h : header) (t : Z) : header := mkheader t (prev h) (next h).
Definition with_prev (h : header) (p : Z) : header := mkheader (type h) p (next h).

(** [std::memcpy] of four bytes into a [std::uint32_t] on a little-endian
    host; a big-endian host reverses each group of four first, which gives
    the same number. *)
Definition byte_at (b : list byte) (i : nat) : Z :=
  Z.of_N (Byte.to_N (nth i b x00)).

Definition le32 (b : list byte) (off : nat) : Z :=
  Z.lor (byte_at b off)
    (Z.lor (Z.shiftl (byte_at b (off + 1)) 8)
       (Z.lor (Z.shiftl (byte_at b (off + 2)) 16)
              (Z.shiftl (byte_at b (off + 3)) 24))).

Definition decode_header (b : list byte) : header :=
  mkheader (le32 b 0) (le32 b 4) (le32 b 8).

(** ** The inner protocol *)

(** The interface of [lfp_protocol] that the reader calls.  [p_readinto f
    len] gives the status, the bytes written to the destination (their
    number is the [n] of the source) and the stream afterwards; [p_seek]
    is [None] when the inner [seek] throws; [p_tell] is [None] when the
    inner [tell] throws an [lfp::error].  The inner [readinto] reports
    through its status and is taken not to throw. *)
Class lfp_protocol (F : Type) : Type := {
  p_readinto : F -> Z -> lfp_status * list byte * F;
  p_seek : F -> Z -> option F;
  p_tell : F -> option Z
}.

(** ** address_map *)

Module address_map.

Record t : Type := mk { zero : Z }.

(** The [int] product [header::size * (1 + record)] of both operations.
    [record] is an [int] parameter: the callers pass a 64-bit position,
    which the call converts. *)
Definition headers_upto (record : Z) : Z :=
  wrap_int (header_size * wrap_int (1 + wrap_int record)).

(** [address_map::logical] *)
Definition logical (m : t) (addr : Z) (record : Z) : Z :=
  addr - headers_upto record - zero m.

(** [address_map::physical] *)
Definition physical (m : t) (addr : Z) (record : Z) : Z :=
  addr + headers_upto record + zero m.

(** [address_map::base] *)
Definition base (m : t) : Z := zero m.

End address_map.

(** ** record_index *)

Module record_index.

(** [record_index] is the vector of headers together with its own copy
    of the address map. *)
Record t : Type := mk {
  vec : list header;
  addr : address_map.t
}.

Definition at_ (ix : t) (i : nat) : header := nth i (vec ix) header0.
Definition size (ix : t) : nat := length (vec ix).
Definition empty (ix : t) : bool := match vec ix with [] => true | _ => false end.
Definition back (ix : t) : header := at_ ix (size ix - 1).
Definition push_back (ix : t) (h : header) : t := mk (vec ix ++ [h]) (addr ix).

(** [record_index::set] *)
Definition set (ix : t) (m : address_map.t) : t := mk (vec ix) m.

(** The lambda [in_hint] of [record_index::find]. *)
Definition in_hint (ix : t) (hint : nat) (n : Z) : bool :=
  let pos := Z.of_nat hint in
  let end_ := address_map.logical (addr ix) (next (at_ ix hint)) pos in
  if pos =? 0 then end_ >? n
  else
    let begin := address_map.logical (addr ix)
                   (next (at_ ix (hint - 1))) (pos - 1) in
    (n >? begin) && (n <=? end_).

(** The lambda [less] of phase 1. *)
Definition less (ix : t) (h : header) (n : Z) : bool :=
  address_map.logical (addr ix) (next h) 0 <? n.

(** [std::lower_bound]: the binary search of the standard library over
    the range starting at [first] of [len] elements.  [len] at least
    halves at each probe, so a fuel of [len] is never used up. *)
Fixpoint lower_bound_from (fuel : nat) (ix : t) (n : Z) (first len : nat) : nat :=
  match fuel with
  | O => first
  | S fuel' =>
      match len with
      | O => first
      | _ =>
          let half := Nat.div2 len in
          let mid := (first + half)%nat in
          if less ix (at_ ix mid) n
          then lower_bound_from fuel' ix n (S mid) (len - half - 1)
          else lower_bound_from fuel' ix n first half
      end
  end.

Definition lower_bound (ix : t) (n : Z) : nat :=
  lower_bound_from (size ix) ix n 0 (size ix).

(** [std::find_if] with the mutable lambda [next_larger] of phase 2,
    which counts the position of the element it tests. *)
Fixpoint find_if (m : address_map.t) (n : Z) (l : list header) (pos : nat) : option nat :=
  match l with
  | [] => None
  | rec :: tl =>
      if n <=? address_map.logical m (next rec) (Z.of_nat pos)
      then Some pos
      else find_if m n tl (S pos)
  end.

(** [record_index::find]; [inr] is the position found, [inl] the
    exception. *)
Definition find (ix : t) (n : Z) (hint : nat) : exception + nat :=
  if in_hint ix hint n then inr hint
  else
    let lower := lower_bound ix n in
    match find_if (addr ix) n (skipn lower (vec ix)) lower with
    | Some cur => inr cur
    | None => inl logic_error
    end.

End record_index.

(** ** read_head *)

Module read_head.

(** An iterator into the index (a position) and the bytes left in the
    record. *)
Record t : Type := mk {
  pos : nat;
  remaining : Z
}.

(** A read head made from a bare iterator: [remaining] takes its default
    member initialiser. *)
Definition of_iterator (p : nat) : t := mk p 0.

Definition exhausted (h : t) : bool := remaining h =? 0.
Definition bytes_left (h : t) : Z := remaining h.

(** [read_head::move]; [None] is the [std::invalid_argument]. *)
Definition move (h : t) (n : Z) : option t :=
  if remaining h - n <? 0 then None
  else Some (mk (pos h) (remaining h - n)).

(** [read_head::next_record]: [base] and the difference are computed in
    unsigned 32-bit arithmetic. *)
Definition next_record (ix : record_index.t) (h : t) : t :=
  let base := wrap32 (next (record_index.at_ ix (pos h)) + header_size) in
  mk (S (pos h)) (wrap32 (next (record_index.at_ ix (S (pos h))) - base)).

(** [read_head::tell] *)
Definition tell (ix : record_index.t) (h : t) : Z :=
  next (record_index.at_ ix (pos h)) - remaining h.

End read_head.

(** ** tapeimage *)

Module tapeimage.

(** [tapeimage::record] and [tapeimage::file] *)
Definition record : Z := 0.
Definition file : Z := 1.

Section Reader.

Context {F : Type} `{lfp_protocol F}.

Record t : Type := mk {
  addr : address_map.t;
  fp : F;
  index : record_index.t;
  current : read_head.t;
  recovery : lfp_status
}.

Definition set_fp (f : F) (s : t) : t :=
  mk (addr s) f (index s) (current s) (recovery s).
Definition set_index (ix : record_index.t) (s : t) : t :=
  mk (addr s) (fp s) ix (current s) (recovery s).
Definition set_current (c : read_head.t) (s : t) : t :=
  mk (addr s) (fp s) (index s) c (recovery s).
Definition set_recovery (r : lfp_status) (s : t) : t :=
  mk (addr s) (fp s) (index s) (current s) r.

(** The header under the read head, [*this->current]. *)
Definition current_header (s : t) : header :=
  record_index.at_ (index s) (read_head.pos (current s)).

(** [this->fp->readinto(dst, len, &n)] *)
Definition fp_readinto (len : Z) : M t (lfp_status * list byte) :=
  fun s =>
    let '(err, data, f') := p_readinto (fp s) len in
    Return (err, data) (set_fp f' s).

(** [this->fp->seek(off)] *)
Definition fp_seek (off : Z) : M t unit :=
  fun s =>
    match p_seek (fp s) off with
    | Some f' => Return tt (set_fp f' s)
    | None => Throw inner_error s
    end.

(** [tapeimage::eof] *)
Definition eof (s : t) : bool := type (current_header s) =? file.

(** [tapeimage::tell] *)
Definition tell (s : t) : Z :=
  let pos := Z.of_nat (read_head.pos (current s)) in
  address_map.logical (addr s) (read_head.tell (index s) (current s)) pos.

(** [tapeimage::append].  The conditional has type [std::int64_t]; its
    second branch is an unsigned 32-bit sum.  [push_back] running out
    of memory (the [runtime_error]) is not modelled. *)
Definition append (head : header) : M t unit :=
  fun s =>
    let tell :=
      if record_index.empty (index s)
      then header_size + address_map.base (addr s)
      else wrap32 (header_size + next (record_index.back (index s))) in
    let ix := record_index.push_back (index s) head in
    Return tt
      (set_current (read_head.mk (record_index.size ix - 1) (next head - tell))
         (set_index ix s)).

(** [tapeimage::read_header_from_disk] *)
Definition read_header_from_disk : M t header :=
  r <- fp_readinto 12 ;;
  let '(err, b) := r in
  match err with
  | LFP_OK => ret tt
  | LFP_OKINCOMPLETE => throw protocol_failed_recovery
  | LFP_EOF => throw unexpected_eof
  | _ => throw not_implemented
  end ;;;
  let head := decode_header b in
  let header_type_consistent :=
    (type head =? record) || (type head =? file) in
  head <- (if negb header_type_consistent then
             rec <- gets recovery ;;
             if status_set rec then throw protocol_failed_recovery
             else
               modify (set_recovery LFP_PROTOCOL_TRYRECOVERY) ;;;
               ret (with_type head record)
           else ret head) ;;
  (if next head <=? prev head then throw protocol_fatal else ret tt) ;;;
  ix <- gets index ;;
  head <- (if (2 <=? record_index.size ix)%nat then
             let back2 := record_index.at_ ix (record_index.size ix - 2) in
             if negb (prev head =? next back2) then
               rec <- gets recovery ;;
               if status_set rec then throw protocol_failed_recovery
               else
                 modify (set_recovery LFP_PROTOCOL_TRYRECOVERY) ;;;
                 ret (with_prev head (next back2))
             else ret head
           else
             rec <- gets recovery ;;
             a <- gets addr ;;
             if status_set rec && negb (record_index.empty ix) then
               if negb (prev head =? address_map.base a)
               then throw protocol_failed_recovery
               else ret head
             else ret head) ;;
  append head ;;;
  ix <- gets index ;;
  ret (record_index.back ix).

(** [tapeimage::read_header] *)
Definition read_header (cur : read_head.t) : M t unit :=
  ix <- gets index ;;
  if (S (read_head.pos cur) =? record_index.size ix)%nat then
    read_header_from_disk ;;; ret tt
  else
    let next := read_head.next_record ix cur in
    fp_seek (read_head.tell ix next) ;;;
    modify (set_current next).

(** The private [tapeimage::readinto]: the loop, one iteration per unit
    of fuel, with the bytes already written to [dst] and their count. *)
Fixpoint readinto_loop (fuel : nat) (len : Z) (bytes_read : Z) (dst : list byte)
  : M t (Z * list byte) :=
  match fuel with
  | O => out_of_fuel
  | S fuel' =>
      at_eof <- gets eof ;;
      if at_eof then ret (bytes_read, dst)
      else
        cur <- gets current ;;
        if read_head.exhausted cur then
          read_header cur ;;;
          readinto_loop fuel' len bytes_read dst
        else
          let to_read := Z.min len (read_head.bytes_left cur) in
          r <- fp_readinto to_read ;;
          let '(err, data) := r in
          let n := Z.of_nat (length data) in
          match read_head.move cur n with
          | None => throw invalid_argument
          | Some cur' =>
              modify (set_current cur') ;;;
              let bytes_read := bytes_read + n in
              let dst := dst ++ data in
              match err with
              | LFP_OKINCOMPLETE => ret (bytes_read, dst)
              | LFP_EOF =>
                  if negb (read_head.exhausted cur')
                  then throw unexpected_eof
                  else ret (bytes_read, dst)
              | _ =>
                  if n =? len then ret (bytes_read, dst)
                  else readinto_loop fuel' (len - n) bytes_read dst
              end
          end
  end.

Definition readinto_private (fuel : nat) (len : Z) : M t (Z * list byte) :=
  readinto_loop fuel len 0 [].

(** The status the public [readinto] derives once the private one has
    returned [n]. *)
Definition readinto_status (s : t) (n len : Z) : lfp_status :=
  if status_set (recovery s) then recovery s
  else if n =? len then LFP_OK
  else if eof s then LFP_EOF
  else LFP_OKINCOMPLETE.

(** The public [tapeimage::readinto]: status, [*bytes_read] and the
    bytes written to [dst]. *)
Definition readinto (fuel : nat) (len : Z) : M t (lfp_status * Z * list byte) :=
  r <- readinto_private fuel len ;;
  let '(n, dst) := r in
  st <- gets (fun s => readinto_status s n len) ;;
  ret (st, n, dst).

(** [tapeimage::seek_with_index] *)
Definition seek_with_index (n : Z) : M t unit :=
  ix <- gets index ;;
  cur <- gets current ;;
  match record_index.find ix n (read_head.pos cur) with
  | inl e => throw e
  | inr next_ =>
      a <- gets addr ;;
      let real_offset := address_map.physical a n (Z.of_nat next_) in
      fp_seek real_offset ;;;
      modify (set_current
                (read_head.mk next_
                   (next (record_index.at_ ix next_) - real_offset)))
  end.

(** The lambda [already_indexed] of [tapeimage::seek]. *)
Definition already_indexed (s : t) (n : Z) : bool :=
  n <=? address_map.logical (addr s)
          (next (record_index.back (index s)))
          (Z.of_nat (record_index.size (index s)) - 1).

(** The header-chasing loop of [tapeimage::seek]. *)
Fixpoint seek_chase (fuel : nat) (n : Z) : M t unit :=
  match fuel with
  | O => out_of_fuel
  | S fuel' =>
      ix <- gets index ;;
      a <- gets addr ;;
      let last := (record_index.size ix - 1)%nat in
      let real_offset := address_map.physical a n (Z.of_nat last) in
      if real_offset <=? next (record_index.at_ ix last) then
        fp_seek real_offset ;;;
        modify (set_current
                  (read_head.mk last
                     (next (record_index.at_ ix last) - real_offset)))
      else if type (record_index.at_ ix last) =? file then ret tt
      else
        fp_seek (next (record_index.at_ ix last)) ;;;
        read_header_from_disk ;;;
        seek_chase fuel' n
  end.

(** [tapeimage::seek] *)
Definition seek (fuel : nat) (n : Z) : M t unit :=
  if uint32_max <? n then throw invalid_args
  else
    indexed <- gets (fun s => already_indexed s n) ;;
    if indexed then seek_with_index n
    else
      ix <- gets index ;;
      modify (set_current (read_head.of_iterator (record_index.size ix - 1))) ;;;
      seek_chase fuel n.

(** The object after the member initialisers and the first [try] block
    of the constructor: the address map is set from the inner [tell],
    or left at zero when that throws. *)
Definition fresh (f : F) : t :=
  let a := match p_tell f with
           | Some z => address_map.mk z
           | None => address_map.mk 0
           end in
  mk a f
    (record_index.set (record_index.mk [] (address_map.mk 0)) a)
    (read_head.mk 0 0) LFP_OK.

(** The constructor [tapeimage::tapeimage].  A [Throw] carries the
    object as it was when the exception left the constructor; its [fp]
    is the stream released to the caller. *)
Definition ctor (f : F) : outcome t header :=
  read_header_from_disk (fresh f).

End Reader.

End tapeimage.

(** [lfp_tapeimage_open]: the handle returned ([None] is the null
    pointer), and the stream left in the caller's hands when no reader
    took it over. *)
Definition lfp_tapeimage_open {F : Type} `{lfp_protocol F} (f : option F)
  : option (tapeimage.t (F:=F)) * option F :=
  match f with
  | None => (None, None)
  | Some f =>
      match tapeimage.ctor f with
      | Return _ s => (Some s, None)
      | Throw _ s => (None, Some (tapeimage.fp s))
      | OutOfFuel => (None, Some f)
      end
  end.

(** ** Concrete inner streams *)

(** Modelled from the spec: an inner byte stream held in memory, after the
    inner-stream interface of the specification (OK means all [len] bytes
    were delivered; EOF means no further data).  The stream classes of the
    library are not part of the sources at hand.  A memory stream never
    blocks, so a short read is at the end of the medium. *)
Module memfile.

Record t : Type := mk {
  mem : list byte;
  pos : Z
}.

Definition readinto (m : t) (len : Z) : lfp_status * list byte * t :=
  let data := firstn (Z.to_nat len) (skipn (Z.to_nat (pos m)) (mem m)) in
  let n := Z.of_nat (length data) in
  (if n =? len then LFP_OK else LFP_EOF, data, mk (mem m) (pos m + n)).

Definition seek (m : t) (off : Z) : option t :=
  if off <? 0 then None else Some (mk (mem m) off).

Definition tell (m : t) : option Z := Some (pos m).

#[export] Instance protocol : lfp_protocol t :=
  {| p_readinto := readinto; p_seek := seek; p_tell := tell |}.

Definition open (bytes : list byte) : t := mk bytes 0.

End memfile.
Export (hints) memfile.

(** ** The scenarios of the specification *)

Module scenario.

(** Twelve header bytes from one-byte field values. *)
Definition hdr (ty pv nx : byte) : list byte :=
  [ty; x00; x00; x00; pv; x00; x00; x00; nx; x00; x00; x00].

(** Scenario 1: three single-byte records, then a file-mark.
    [0..11] type=0 prev=0 next=13; [12] 'A'; [13..24] type=0 prev=0
    next=26; [25] 'B'; [26..37] type=0 prev=13 next=39; [38] 'C';
    [39..50] type=1 prev=26 next=51. *)
Definition abc : list byte :=
  hdr x00 x00 x0d ++ [x41] ++
  hdr x00 x00 x1a ++ [x42] ++
  hdr x00 x0d x27 ++ [x43] ++
  hdr x01 x1a x33.

(** The same stream with the first header's type set to 7. *)
Definition abc_type7 : list byte :=
  hdr x07 x00 x0d ++ [x41] ++
  hdr x00 x00 x1a ++ [x42] ++
  hdr x00 x0d x27 ++ [x43] ++
  hdr x01 x1a x33.

(** One record, then a file-mark header whose [next] (5) lies before the
    header itself: [0..11] type=0 prev=0 next=13; [12] 'A'; [13..24]
    type=1 prev=0 next=5. *)
Definition backwards : list byte :=
  hdr x00 x00 x0d ++ [x41] ++
  hdr x01 x00 x05.

(** A single header with prev = 100 and next = 50, of type 0 and of
    type 7. *)
Definition overflow : list byte := hdr x00 x64 x32.
Definition overflow_type7 : list byte := hdr x07 x64 x32.

(** Scenario 1 with the third header's prev set to 0 instead of 13, and
    the same with that header's type set to 7 as well. *)
Definition badlink : list byte :=
  hdr x00 x00 x0d ++ [x41] ++
  hdr x00 x00 x1a ++ [x42] ++
  hdr x00 x00 x27 ++ [x43] ++
  hdr x01 x1a x33.

Definition badlink_type7 : list byte :=
  hdr x00 x00 x0d ++ [x41] ++
  hdr x00 x00 x1a ++ [x42] ++
  hdr x07 x00 x27 ++ [x43] ++
  hdr x01 x1a x33.

(** One record of one byte and nothing after it. *)
Definition single : list byte := hdr x00 x00 x0d ++ [x41].


End scenario.

(** The reader right after [lfp_tapeimage_open] on scenario 1. *)
Definition abc_opened : tapeimage.t (F:=memfile.t) :=
  tapeimage.mk (address_map.mk 0) (memfile.mk scenario.abc 12)
    (record_index.mk [mkheader 0 0 13] (address_map.mk 0))
    (read_head.mk 0 1) LFP_OK.

(** The reader of scenario 1 once the whole stream is indexed. *)
Definition abc_indexed : tapeimage.t (F:=memfile.t) :=
  tapeimage.mk (address_map.mk 0) (memfile.mk scenario.abc 51)
    (record_index.mk
       [mkheader 0 0 13; mkheader 0 0 26; mkheader 0 13 39; mkheader 1 26 51]
       (address_map.mk 0))
    (read_head.mk 3 0) LFP_OK.

(** The reader right after [lfp_tapeimage_open] on [scenario.backwards],
    and after the read of 2 bytes that follows. *)
Definition backwards_opened : tapeimage.t (F:=memfile.t) :=
  tapeimage.mk (address_map.mk 0) (memfile.mk scenario.backwards 12)
    (record_index.mk [mkheader 0 0 13] (address_map.mk 0))
    (read_head.mk 0 1) LFP_OK.

Definition backwards_read : tapeimage.t (F:=memfile.t) :=
  tapeimage.mk (address_map.mk 0) (memfile.mk scenario.backwards 25)
    (record_index.mk [mkheader 0 0 13; mkheader 1 0 5] (address_map.mk 0))
    (read_head.mk 1 (-20)) LFP_OK.

(** The index is strictly monotone: invariant 3 of the specification. *)
Definition monotone (ix : record_index.t) : Prop :=
  forall i : nat, (S i < record_index.size ix)%nat ->
    next (record_index.at_ ix i) < next (record_index.at_ ix (S i)).

(** ** Derived notions used by the properties *)

Section ParsingDefs.

Context {F : Type} {P : lfp_protocol F}.
Import tapeimage.

Local Abbreviation st := (tapeimage.t (F:=F)).
Implicit Types (s : st) (h : header).

(** The reader once [append] has stored [h]. *)
Definition appended (h : header) (s : st) : st :=
  let tell :=
    if record_index.empty (index s)
    then header_size + address_map.base (addr s)
    else wrap32 (header_size + next (record_index.back (index s))) in
  set_current
    (read_head.mk (record_index.size (index s)) (next h - tell))
    (set_index (record_index.push_back (index s) h) s).

(** What [read_header_from_disk] does with the header [h] it decoded,
    in a reader [s] that has already consumed the twelve bytes. *)
Definition parsed (h : header) (s : st) : outcome st header :=
  let consistent := (type h =? record) || (type h =? file) in
  if negb consistent && status_set (recovery s)
  then Throw protocol_failed_recovery s
  else
    let s1 := if consistent then s else set_recovery LFP_PROTOCOL_TRYRECOVERY s in
    let h1 := if consistent then h else with_type h record in
    if next h1 <=? prev h1 then Throw protocol_fatal s1
    else
      let ix := index s in
      let back2 := next (record_index.at_ ix (record_index.size ix - 2)) in
      if (2 <=? record_index.size ix)%nat then
        if prev h1 =? back2 then Return h1 (appended h1 s1)
        else if status_set (recovery s1) then Throw protocol_failed_recovery s1
        else Return (with_prev h1 back2)
               (appended (with_prev h1 back2)
                  (set_recovery LFP_PROTOCOL_TRYRECOVERY s1))
      else if status_set (recovery s1) && negb (record_index.empty ix)
              && negb (prev h1 =? address_map.base (addr s))
      then Throw protocol_failed_recovery s1
      else Return h1 (appended h1 s1).

End ParsingDefs.

(** Concrete readers over a memory stream, for the scenarios. *)
Definition reader_at (bytes : list byte) (at_byte : Z) (hs : list header)
    (cur : read_head.t) (rec : lfp_status) : tapeimage.t (F:=memfile.t) :=
  tapeimage.mk (address_map.mk 0) (memfile.mk bytes at_byte)
    (record_index.mk hs (address_map.mk 0)) cur rec.

(** The reader with its recovery status reset to clean, all else equal. *)
Definition clean {F : Type} (s : tapeimage.t (F:=F)) : tapeimage.t (F:=F) :=
  tapeimage.set_recovery LFP_OK s.

(** The reader of scenario 1 with the first header's type set to 7, right
    after [lfp_tapeimage_open], and once the whole stream is indexed. *)
Definition type7_opened : tapeimage.t (F:=memfile.t) :=
  reader_at scenario.abc_type7 12 [mkheader 0 0 13] (read_head.mk 0 1)
    LFP_PROTOCOL_TRYRECOVERY.

Definition type7_indexed : tapeimage.t (F:=memfile.t) :=
  reader_at scenario.abc_type7 51
    [mkheader 0 0 13; mkheader 0 0 26; mkheader 0 13 39; mkheader 1 26 51]
    (read_head.mk 3 0) LFP_PROTOCOL_TRYRECOVERY.



(** ** Readers at rest *)

Section Validity.

Context {F : Type} {P : lfp_protocol F}.
Import tapeimage.

Local Abbreviation st := (tapeimage.t (F:=F)).

(** The logical offset one past the last payload byte of record [p]. *)
Definition record_end (s : st) (p : nat) : Z :=
  address_map.logical (addr s) (next (record_index.at_ (index s) p)) (Z.of_nat p).

(** The physical offset of the first payload byte of record [p]. *)
Definition body_start (s : st) (p : nat) : Z :=
  match p with
  | O => address_map.base (addr s) + header_size
  | S q => next (record_index.at_ (index s) q) + header_size
  end.

Definition body_length (s : st) (p : nat) : Z :=
  next (record_index.at_ (index s) p) - body_start s p.

(** A valid reader: the index carries the reader's address map, the
    read head is on an indexed record with between 0 and the record's
    length bytes remaining, no record has a negative length, and the
    offsets are those of a 32-bit tape image. *)
Record valid (s : st) : Prop := {
  v_index_addr : record_index.addr (index s) = addr s;
  v_base : 0 <= address_map.base (addr s);
  v_pos : (read_head.pos (current s) < record_index.size (index s))%nat;
  v_bodies : forall p : nat, (p < record_index.size (index s))%nat ->
               0 <= body_length s p;
  v_u32 : forall p : nat, (p < record_index.size (index s))%nat ->
            next (record_index.at_ (index s) p) <= uint32_max;
  v_remaining : 0 <= read_head.remaining (current s)
                <= body_length s (read_head.pos (current s))
}.

(** The logical offset [n] lies within the indexed record [p]: after the
    end of the record before it, and not after its own end. *)
Definition in_record (s : st) (p : nat) (n : Z) : Prop :=
  (p < record_index.size (index s))%nat /\
  n <= record_end s p /\
  match p with
  | O => 0 <= n
  | S q => record_end s q < n
  end.

(** The inner stream accepts every non-negative offset. *)
Definition seekable (f : F) : Prop :=
  forall off : Z, 0 <= off -> p_seek f off <> None.

(** The number of indexed records up to which the [int] product of the
    address map is exact: 12 * 178956970 = 2147483640 fits an [int], and
    12 * 178956971 does not. *)
Definition max_int_records : Z := 178956970.

(** The index is within that number of records. *)
Definition int_sized (s : st) : Prop :=
  Z.of_nat (record_index.size (index s)) <= max_int_records.



End Validity.


(** ** Relations between the reader before and after an operation *)

Section Relations.

Context {F : Type} {P : lfp_protocol F}.
Import tapeimage.

Local Abbreviation st := (tapeimage.t (F:=F)).

(** [after o R] holds when the operation whose outcome is [o] ran out of
    fuel, or left, by returning or by throwing, a reader related by [R]. *)
Definition after {A : Type} (o : outcome st A) (R : st -> Prop) : Prop :=
  match o with
  | Return _ s' => R s'
  | Throw _ s' => R s'
  | OutOfFuel => True
  end.

(** The index of [s'] is the index of [s] with headers appended, and the
    two address maps are those of [s]. *)
Definition extends (s s' : st) : Prop :=
  (exists l : list header,
      record_index.vec (index s') = record_index.vec (index s) ++ l) /\
  addr s' = addr s /\
  record_index.addr (index s') = record_index.addr (index s).

(** The recovery status of [s'] is that of [s], or [s] was clean and [s']
    is tainted. *)
Definition taints (s s' : st) : Prop :=
  recovery s' = recovery s \/
  (recovery s = LFP_OK /\ recovery s' = LFP_PROTOCOL_TRYRECOVERY).

(** Every indexed header is a record or a file-mark, and from the third
    on its prev is the next of the header two places before it. *)
Definition linked (s : st) : Prop :=
  (forall i : nat, (i < record_index.size (index s))%nat ->
     type (record_index.at_ (index s) i) = record \/
     type (record_index.at_ (index s) i) = file) /\
  (forall i : nat, (S (S i) < record_index.size (index s))%nat ->
     prev (record_index.at_ (index s) (S (S i)))
     = next (record_index.at_ (index s) i)).

(** Every indexed header has its prev before its next; and every indexed
    header has its next after the next of the header two places before. *)
Definition ordered (s : st) : Prop :=
  forall i : nat, (i < record_index.size (index s))%nat ->
    prev (record_index.at_ (index s) i) < next (record_index.at_ (index s) i).

Definition ordered_by_two (s : st) : Prop :=
  forall i : nat, (S (S i) < record_index.size (index s))%nat ->
    next (record_index.at_ (index s) i)
    < next (record_index.at_ (index s) (S (S i))).

(** From [s] to [s'] the taint has only grown, and if [s'] is clean, it
    is ordered when [s] is. *)
Definition keeps_order (s s' : st) : Prop :=
  taints s s' /\ (recovery s' = LFP_OK -> ordered s -> ordered s').

(** No indexed header but the last is a file-mark. *)
Definition mark_last (s : st) : Prop :=
  forall i : nat, (S i < record_index.size (index s))%nat ->
    type (record_index.at_ (index s) i) <> file.

(** The read head is on an indexed record, and the index carries the
    reader's address map. *)
Definition on_record (s : st) : Prop :=
  (read_head.pos (current s) < record_index.size (index s))%nat /\
  record_index.addr (index s) = addr s.

End Relations.

(** The exception [read_header_from_disk] throws for a status of the inner
    read other than OK. *)
Definition header_read_error (err : lfp_status) : exception :=
  match err with
  | LFP_OKINCOMPLETE => protocol_failed_recovery
  | LFP_EOF => unexpected_eof
  | _ => not_implemented
  end.

(** ** Tape images written out *)

(** Modelled from the spec: the on-disk format, for which the sources at
    hand have a reader only.  A 32-bit value is stored least significant
    byte first; a header is its type, prev and next fields in that order;
    an image is, for each record, a header of type 0 followed by the
    payload, and a closing file-mark header of type 1 with an empty
    payload.  [off] is the physical offset of the header being laid out
    and [prevoff] that of the header before it, which its prev field
    holds; next holds the offset of the header that follows. *)
Definition byte_of (z : Z) : byte :=
  match Byte.of_N (Z.to_N (z mod 256)) with
  | Some b => b
  | None => x00
  end.

Definition le32_bytes (v : Z) : list byte :=
  [byte_of v; byte_of (v / 256); byte_of (v / 65536); byte_of (v / 16777216)].

Definition header_bytes (h : header) : list byte :=
  le32_bytes (type h) ++ le32_bytes (prev h) ++ le32_bytes (next h).

Definition lenZ (r : list byte) : Z := Z.of_nat (length r).

Fixpoint tif_image (off prevoff : Z) (recs : list (list byte)) : list byte :=
  match recs with
  | [] => header_bytes (mkheader 1 prevoff (off + 12))
  | r :: rest =>
      header_bytes (mkheader 0 prevoff (off + 12 + lenZ r))
      ++ r ++ tif_image (off + 12 + lenZ r) off rest
  end.

(** The payload bytes of an image, and the size of the image. *)
Definition payload (recs : list (list byte)) : list byte := concat recs.

Definition image_size (recs : list (list byte)) : Z :=
  lenZ (payload recs) + 12 * (Z.of_nat (length recs) + 1).

(** Modelled from the spec: an inner stream that is drained for the time
    being after every byte: a read delivers at most one byte and reports
    OK-incomplete when it was asked for more, OK when it delivered all
    that was asked, EOF when the medium holds nothing further. *)
Module tricklefile.

Record t : Type := mk {
  mem : list byte;
  pos : Z
}.

Definition readinto (m : t) (len : Z) : lfp_status * list byte * t :=
  let data := firstn (Z.to_nat (Z.min len 1)) (skipn (Z.to_nat (pos m)) (mem m)) in
  let n := Z.of_nat (length data) in
  (if n =? len then LFP_OK
   else if n =? 0 then LFP_EOF else LFP_OKINCOMPLETE,
   data, mk (mem m) (pos m + n)).

Definition seek (m : t) (off : Z) : option t :=
  if off <? 0 then None else Some (mk (mem m) off).

Definition tell (m : t) : option Z := Some (pos m).

#[export] Instance protocol : lfp_protocol t :=
  {| p_readinto := readinto; p_seek := seek; p_tell := tell |}.

End tricklefile.
Export (hints) tricklefile.

(** One record of two bytes, "AB", and nothing after it; and the reader
    over the trickling stream that holds it, right after opening and after
    a first byte has been read. *)
Definition two_bytes : list byte := scenario.hdr x00 x00 x0e ++ [x41; x42].

Definition trickle_opened : tapeimage.t (F:=tricklefile.t) :=
  tapeimage.mk (address_map.mk 0) (tricklefile.mk two_bytes 12)
    (record_index.mk [mkheader 0 0 14] (address_map.mk 0))
    (read_head.mk 0 2) LFP_OK.

Definition trickle_read : tapeimage.t (F:=tricklefile.t) :=
  tapeimage.mk (address_map.mk 0) (tricklefile.mk two_bytes 13)
    (record_index.mk [mkheader 0 0 14] (address_map.mk 0))
    (read_head.mk 0 1) LFP_OK.

(** The reader over the memory stream [scenario.single] once its one
    payload byte has been read: the stream ends where the next header
    should be. *)
Definition single_exhausted : tapeimage.t (F:=memfile.t) :=
  reader_at scenario.single 13 [mkheader 0 0 13] (read_head.mk 0 0) LFP_OK.

(** The reader of scenario 1 that has read "A" and is about to parse the
    second header, and the one that has just parsed it. *)
Definition abc_after_a : tapeimage.t (F:=memfile.t) :=
  reader_at scenario.abc 13 [mkheader 0 0 13] (read_head.mk 0 0) LFP_OK.

Definition abc_at_b : tapeimage.t (F:=memfile.t) :=
  reader_at scenario.abc 25 [mkheader 0 0 13; mkheader 0 0 26]
    (read_head.mk 1 1) LFP_OK.

(** * Properties *)

(** ** Header parsing, case by case *)

Ltac run :=
  cbv beta iota zeta delta
      [bind gets modify ret throw
       tapeimage.fp_readinto tapeimage.fp_seek tapeimage.append
       tapeimage.addr tapeimage.fp tapeimage.index tapeimage.current tapeimage.recovery
       tapeimage.set_fp tapeimage.set_index tapeimage.set_current tapeimage.set_recovery
       negb orb andb status_set fst snd].

Section Parsing.

Context {F : Type} {P : lfp_protocol F}.
Import tapeimage.

Local Abbreviation st := (tapeimage.t (F:=F)).
Implicit Types (s : st) (h : header).

Lemma back_push_back (ix : record_index.t) (h : header) :
  record_index.back (record_index.push_back ix h) = h.
Proof.
  unfold record_index.back, record_index.push_back, record_index.size, record_index.at_.
  cbn [record_index.vec]. rewrite length_app. cbn [length].
  replace (length (record_index.vec ix) + 1 - 1)%nat
    with (length (record_index.vec ix)) by lia.
  apply nth_middle.
Qed.

Lemma size_push_back (ix : record_index.t) (h : header) :
  (record_index.size (record_index.push_back ix h) - 1)%nat = record_index.size ix.
Proof.
  unfold record_index.push_back, record_index.size. cbn [record_index.vec].
  rewrite length_app. cbn [length]. lia.
Qed.

Lemma read_header_from_disk_eq (s : st) :
  read_header_from_disk s =
  match p_readinto (fp s) 12 with
  | (LFP_OK, b, f') => parsed (decode_header b) (set_fp f' s)
  | (LFP_OKINCOMPLETE, _, f') => Throw protocol_failed_recovery (set_fp f' s)
  | (LFP_EOF, _, f') => Throw unexpected_eof (set_fp f' s)
  | (_, _, f') => Throw not_implemented (set_fp f' s)
  end.
Proof.
  unfold read_header_from_disk, bind at 1, fp_readinto.
  destruct (p_readinto (fp s) 12) as [[err b] f'].
  destruct err; try reflexivity.
  generalize (decode_header b); intros h.
  generalize (set_fp f' s); clear s; intros s.
  unfold parsed, appended. destruct s as [a f ix cur rec]. run.
  repeat (match goal with
          | |- context [Z.eqb ?x ?y] => destruct (Z.eqb x y) eqn:?
          | |- context [Z.leb ?x ?y] => destruct (Z.leb x y) eqn:?
          | |- context [Nat.leb ?x ?y] => destruct (Nat.leb x y) eqn:?
          | |- context [record_index.empty ?x] =>
              destruct (record_index.empty x) eqn:?
          | |- context [match ?c with LFP_OK => _ | _ => _ end] =>
              destruct c eqn:?
          end; run);
    rewrite ?back_push_back, ?size_push_back;
    try reflexivity; try congruence.
Qed.

(** C2: a header of a type other than 0 and 1 read by a clean reader
    taints it and is stored with type 0, parsing going on through the
    remaining checks; a header whose prev differs from the next of the
    second-to-last indexed header, with at least two headers indexed,
    taints a clean reader and is stored with prev patched to that next.
    Either anomaly met by a reader that is already tainted makes parsing
    fail with protocol failed recovery; the last part is the case of both
    anomalies in one header, where the type check has tainted the reader
    by the time the back-link check runs. *)
Theorem C2_recoverable_anomalies (s : st) (b : list byte) (f' : F)
    (h : header) (back2 : Z) :
  p_readinto (fp s) 12 = (LFP_OK, b, f') ->
  h = decode_header b ->
  back2 = next (record_index.at_ (index s) (record_index.size (index s) - 2)) ->
  (recovery s = LFP_OK -> type h <> 0 -> type h <> 1 -> prev h < next h ->
   (record_index.size (index s) = 0%nat \/
    (record_index.size (index s) = 1%nat /\ prev h = address_map.base (addr s)) \/
    ((2 <= record_index.size (index s))%nat /\ prev h = back2)) ->
   exists s',
     read_header_from_disk s = Return (with_type h 0) s' /\
     recovery s' = LFP_PROTOCOL_TRYRECOVERY /\
     record_index.vec (index s') = record_index.vec (index s) ++ [with_type h 0])
  /\
  (recovery s = LFP_OK -> type h = 0 \/ type h = 1 -> prev h < next h ->
   (2 <= record_index.size (index s))%nat -> prev h <> back2 ->
   exists s',
     read_header_from_disk s = Return (with_prev h back2) s' /\
     recovery s' = LFP_PROTOCOL_TRYRECOVERY /\
     record_index.vec (index s') = record_index.vec (index s) ++ [with_prev h back2])
  /\
  (recovery s <> LFP_OK -> type h <> 0 -> type h <> 1 ->
   read_header_from_disk s = Throw protocol_failed_recovery (set_fp f' s))
  /\
  (recovery s <> LFP_OK -> type h = 0 \/ type h = 1 -> prev h < next h ->
   (2 <= record_index.size (index s))%nat -> prev h <> back2 ->
   read_header_from_disk s = Throw protocol_failed_recovery (set_fp f' s))
  /\
  (recovery s = LFP_OK -> type h <> 0 -> type h <> 1 -> prev h < next h ->
   (2 <= record_index.size (index s))%nat -> prev h <> back2 ->
   read_header_from_disk s
   = Throw protocol_failed_recovery
       (set_recovery LFP_PROTOCOL_TRYRECOVERY (set_fp f' s))).
Proof.
  intros Hrd Hh Hb2.
  rewrite read_header_from_disk_eq, Hrd, <- Hh.
  unfold parsed, record, file.
  cbn [recovery set_fp index addr with_type with_prev type prev next].
  rewrite <- Hb2.
  repeat split.
  - intros Hc H0 H1 Hlt Hix. rewrite Hc.
    rewrite (proj2 (Z.eqb_neq _ _) H0), (proj2 (Z.eqb_neq _ _) H1).
    cbn [orb negb andb status_set recovery set_recovery
         with_type prev next type].
    rewrite (proj2 (Z.leb_gt _ _) Hlt).
    destruct Hix as [Hz | [[H1s Hp] | [H2s Hp]]].
    + rewrite Hz. cbn [Nat.leb andb].
      assert (He : record_index.empty (index s) = true).
      { unfold record_index.size in Hz. unfold record_index.empty.
        destruct (record_index.vec (index s)); [reflexivity|discriminate]. }
      rewrite He. cbn [negb andb]. eexists. repeat split.
    + rewrite H1s. cbn [Nat.leb andb]. rewrite Hp, Z.eqb_refl.
      rewrite andb_false_r. eexists. repeat split.
    + rewrite (proj2 (Nat.leb_le _ _) H2s), Hp, Z.eqb_refl.
      eexists. repeat split.
  - intros Hc Ht Hlt H2s Hp.
    assert (Hcons : (type h =? 0) || (type h =? 1) = true).
    { destruct Ht as [Ht | Ht]; rewrite Ht; reflexivity. }
    rewrite Hcons. cbn [negb andb].
    rewrite (proj2 (Z.leb_gt _ _) Hlt), (proj2 (Nat.leb_le _ _) H2s).
    rewrite (proj2 (Z.eqb_neq _ _) Hp). cbn [recovery set_fp].
    rewrite Hc. cbn [status_set]. eexists. repeat split.
  - intros Hc H0 H1.
    rewrite (proj2 (Z.eqb_neq _ _) H0), (proj2 (Z.eqb_neq _ _) H1).
    destruct (recovery s); [contradiction| reflexivity ..].
  - intros Hc Ht Hlt H2s Hp.
    assert (Hcons : (type h =? 0) || (type h =? 1) = true).
    { destruct Ht as [Ht | Ht]; rewrite Ht; reflexivity. }
    rewrite Hcons. cbn [negb andb].
    rewrite (proj2 (Z.leb_gt _ _) Hlt), (proj2 (Nat.leb_le _ _) H2s).
    rewrite (proj2 (Z.eqb_neq _ _) Hp). cbn [recovery set_fp].
    destruct (recovery s); [contradiction| reflexivity ..].
  - intros Hc H0 H1 Hlt H2s Hp. rewrite Hc.
    rewrite (proj2 (Z.eqb_neq _ _) H0), (proj2 (Z.eqb_neq _ _) H1).
    cbn [orb negb andb status_set recovery set_recovery
         with_type prev next type].
    rewrite (proj2 (Z.leb_gt _ _) Hlt), (proj2 (Nat.leb_le _ _) H2s).
    rewrite (proj2 (Z.eqb_neq _ _) Hp). reflexivity.
Qed.

(** C4, as amended: a header with next <= prev whose type is 0 or 1
    makes parsing raise protocol fatal with the recovery status, the
    index and the read head untouched.  When its type is neither, the
    type check has run first: a clean reader is tainted by the time
    protocol fatal is raised, and a tainted reader raises protocol failed
    recovery instead. *)
Theorem C4_fatal_after_type_check (s : st) (b : list byte) (f' : F) (h : header) :
  p_readinto (fp s) 12 = (LFP_OK, b, f') ->
  h = decode_header b ->
  next h <= prev h ->
  (type h = 0 \/ type h = 1 ->
   read_header_from_disk s = Throw protocol_fatal (set_fp f' s) /\
   recovery (set_fp f' s) = recovery s)
  /\
  (type h <> 0 -> type h <> 1 -> recovery s = LFP_OK ->
   read_header_from_disk s
   = Throw protocol_fatal (set_recovery LFP_PROTOCOL_TRYRECOVERY (set_fp f' s)))
  /\
  (type h <> 0 -> type h <> 1 -> recovery s <> LFP_OK ->
   read_header_from_disk s = Throw protocol_failed_recovery (set_fp f' s) /\
   recovery (set_fp f' s) = recovery s).
Proof.
  intros Hrd Hh Hle.
  rewrite read_header_from_disk_eq, Hrd, <- Hh.
  unfold parsed, record, file.
  split; [|split].
  - intros Ht.
    assert (Hcons : (type h =? 0) || (type h =? 1) = true).
    { destruct Ht as [Ht | Ht]; rewrite Ht; reflexivity. }
    rewrite Hcons. cbn [negb andb].
    rewrite (proj2 (Z.leb_le _ _) Hle). split; reflexivity.
  - intros H0 H1 Hc.
    rewrite (proj2 (Z.eqb_neq _ _) H0), (proj2 (Z.eqb_neq _ _) H1).
    cbn [recovery set_fp]. rewrite Hc.
    cbn [orb negb andb status_set with_type next prev].
    rewrite (proj2 (Z.leb_le _ _) Hle). reflexivity.
  - intros H0 H1 Hc.
    rewrite (proj2 (Z.eqb_neq _ _) H0), (proj2 (Z.eqb_neq _ _) H1).
    cbn [recovery set_fp].
    destruct (recovery s); [contradiction| split; reflexivity ..].
Qed.

End Parsing.

(** C2 at concrete readers over memory streams: a fresh reader on a stream
    whose first header has type 7; a clean and a tainted reader with two
    headers indexed, in front of a third header whose prev is 0; a tainted
    reader in front of a header of type 7; a clean reader in front of a
    header with both anomalies. *)
Lemma C2_recoverable_anomalies_witness :
  (exists s',
      tapeimage.read_header_from_disk
        (tapeimage.fresh (memfile.open scenario.abc_type7))
      = Return (mkheader 0 0 13) s' /\
      tapeimage.recovery s' = LFP_PROTOCOL_TRYRECOVERY /\
      record_index.vec (tapeimage.index s') = [] ++ [mkheader 0 0 13]) /\
  (exists s',
      tapeimage.read_header_from_disk
        (reader_at scenario.badlink 26 [mkheader 0 0 13; mkheader 0 0 26]
           (read_head.mk 1 0) LFP_OK)
      = Return (mkheader 0 13 39) s' /\
      tapeimage.recovery s' = LFP_PROTOCOL_TRYRECOVERY /\
      record_index.vec (tapeimage.index s')
      = [mkheader 0 0 13; mkheader 0 0 26] ++ [mkheader 0 13 39]) /\
  tapeimage.read_header_from_disk
    (tapeimage.set_recovery LFP_PROTOCOL_TRYRECOVERY
       (tapeimage.fresh (memfile.open scenario.abc_type7)))
  = Throw protocol_failed_recovery
      (reader_at scenario.abc_type7 12 [] (read_head.mk 0 0)
         LFP_PROTOCOL_TRYRECOVERY) /\
  tapeimage.read_header_from_disk
    (reader_at scenario.badlink 26 [mkheader 0 0 13; mkheader 0 0 26]
       (read_head.mk 1 0) LFP_PROTOCOL_TRYRECOVERY)
  = Throw protocol_failed_recovery
      (reader_at scenario.badlink 38 [mkheader 0 0 13; mkheader 0 0 26]
         (read_head.mk 1 0) LFP_PROTOCOL_TRYRECOVERY) /\
  tapeimage.read_header_from_disk
    (reader_at scenario.badlink_type7 26 [mkheader 0 0 13; mkheader 0 0 26]
       (read_head.mk 1 0) LFP_OK)
  = Throw protocol_failed_recovery
      (reader_at scenario.badlink_type7 38 [mkheader 0 0 13; mkheader 0 0 26]
         (read_head.mk 1 0) LFP_PROTOCOL_TRYRECOVERY).
Proof.
  split; [|split; [|split; [|split]]].
  - refine (proj1 (@C2_recoverable_anomalies _ _
              (tapeimage.fresh (memfile.open scenario.abc_type7))
              (scenario.hdr x07 x00 x0d) (memfile.mk scenario.abc_type7 12)
              (mkheader 7 0 13) 0 eq_refl eq_refl eq_refl) eq_refl _ _ _ _);
      cbn; try lia; try discriminate; try (left; reflexivity).
  - refine (proj1 (proj2 (@C2_recoverable_anomalies _ _
              (reader_at scenario.badlink 26 [mkheader 0 0 13; mkheader 0 0 26]
                 (read_head.mk 1 0) LFP_OK)
              (scenario.hdr x00 x00 x27) (memfile.mk scenario.badlink 38)
              (mkheader 0 0 39) 13 eq_refl eq_refl eq_refl)) eq_refl _ _ _ _);
      cbn; try lia; try discriminate; try (left; reflexivity).
  - refine (proj1 (proj2 (proj2 (@C2_recoverable_anomalies _ _
              (tapeimage.set_recovery LFP_PROTOCOL_TRYRECOVERY
                 (tapeimage.fresh (memfile.open scenario.abc_type7)))
              (scenario.hdr x07 x00 x0d) (memfile.mk scenario.abc_type7 12)
              (mkheader 7 0 13) 0 eq_refl eq_refl eq_refl))) _ _ _);
      cbn; try lia; discriminate.
  - refine (proj1 (proj2 (proj2 (proj2 (@C2_recoverable_anomalies _ _
              (reader_at scenario.badlink 26 [mkheader 0 0 13; mkheader 0 0 26]
                 (read_head.mk 1 0) LFP_PROTOCOL_TRYRECOVERY)
              (scenario.hdr x00 x00 x27) (memfile.mk scenario.badlink 38)
              (mkheader 0 0 39) 13 eq_refl eq_refl eq_refl)))) _ _ _ _ _);
      cbn; try lia; try discriminate; try (left; reflexivity).
  - refine (proj2 (proj2 (proj2 (proj2 (@C2_recoverable_anomalies _ _
              (reader_at scenario.badlink_type7 26 [mkheader 0 0 13; mkheader 0 0 26]
                 (read_head.mk 1 0) LFP_OK)
              (scenario.hdr x07 x00 x27) (memfile.mk scenario.badlink_type7 38)
              (mkheader 7 0 39) 13 eq_refl eq_refl eq_refl)))) eq_refl _ _ _ _ _);
      cbn; try lia; discriminate.
Defined.

(** C4 at concrete readers: fresh readers on a stream whose only header
    has prev = 100 and next = 50, of type 0 and of type 7, and a tainted
    reader on the latter. *)
Lemma C4_fatal_after_type_check_witness :
  (tapeimage.read_header_from_disk (tapeimage.fresh (memfile.open scenario.overflow))
   = Throw protocol_fatal (reader_at scenario.overflow 12 [] (read_head.mk 0 0) LFP_OK) /\
   LFP_OK = LFP_OK) /\
  tapeimage.read_header_from_disk (tapeimage.fresh (memfile.open scenario.overflow_type7))
  = Throw protocol_fatal
      (reader_at scenario.overflow_type7 12 [] (read_head.mk 0 0)
         LFP_PROTOCOL_TRYRECOVERY) /\
  (tapeimage.read_header_from_disk
     (tapeimage.set_recovery LFP_PROTOCOL_TRYRECOVERY
        (tapeimage.fresh (memfile.open scenario.overflow_type7)))
   = Throw protocol_failed_recovery
       (reader_at scenario.overflow_type7 12 [] (read_head.mk 0 0)
          LFP_PROTOCOL_TRYRECOVERY) /\
   LFP_PROTOCOL_TRYRECOVERY = LFP_PROTOCOL_TRYRECOVERY).
Proof.
  split; [|split].
  - refine (proj1 (@C4_fatal_after_type_check _ _
              (tapeimage.fresh (memfile.open scenario.overflow))
              (scenario.hdr x00 x64 x32) (memfile.mk scenario.overflow 12)
              (mkheader 0 100 50) eq_refl eq_refl _) _);
      cbn; [lia | left; reflexivity].
  - refine (proj1 (proj2 (@C4_fatal_after_type_check _ _
              (tapeimage.fresh (memfile.open scenario.overflow_type7))
              (scenario.hdr x07 x64 x32) (memfile.mk scenario.overflow_type7 12)
              (mkheader 7 100 50) eq_refl eq_refl _)) _ _ eq_refl);
      cbn; lia.
  - refine (proj2 (proj2 (@C4_fatal_after_type_check _ _
              (tapeimage.set_recovery LFP_PROTOCOL_TRYRECOVERY
                 (tapeimage.fresh (memfile.open scenario.overflow_type7)))
              (scenario.hdr x07 x64 x32) (memfile.mk scenario.overflow_type7 12)
              (mkheader 7 100 50) eq_refl eq_refl _)) _ _ _);
      cbn; try lia; discriminate.
Defined.

(** C4 as stated fails on a clean reader in front of a header of type 7
    with prev = 100 and next = 50: parsing raises protocol fatal, and the
    recovery status has gone from clean to tainted.  Hence not every
    header with next <= prev is refused with the recovery status kept. *)
Lemma C4_counterexample :
  p_readinto (tapeimage.fp (tapeimage.fresh (memfile.open scenario.overflow_type7))) 12
  = (LFP_OK, scenario.hdr x07 x64 x32, memfile.mk scenario.overflow_type7 12) /\
  decode_header (scenario.hdr x07 x64 x32) = mkheader 7 100 50 /\
  tapeimage.recovery (tapeimage.fresh (memfile.open scenario.overflow_type7)) = LFP_OK /\
  tapeimage.read_header_from_disk (tapeimage.fresh (memfile.open scenario.overflow_type7))
  = Throw protocol_fatal
      (reader_at scenario.overflow_type7 12 [] (read_head.mk 0 0)
         LFP_PROTOCOL_TRYRECOVERY) /\
  ~ (forall (s : tapeimage.t (F:=memfile.t)) (b : list byte) (f' : memfile.t),
        p_readinto (tapeimage.fp s) 12 = (LFP_OK, b, f') ->
        next (decode_header b) <= prev (decode_header b) ->
        exists s', tapeimage.read_header_from_disk s = Throw protocol_fatal s' /\
                   tapeimage.recovery s' = tapeimage.recovery s).
Proof.
  repeat split.
  intros Hall.
  destruct (Hall (tapeimage.fresh (memfile.open scenario.overflow_type7))
              (scenario.hdr x07 x64 x32) (memfile.mk scenario.overflow_type7 12)
              eq_refl) as (s' & Hthrow & Hrec).
  - cbn. lia.
  - vm_compute in Hthrow. injection Hthrow as <-. discriminate Hrec.
Qed.

(** ** Reads of a tainted reader *)

Section Tainted.

Context {F : Type} {P : lfp_protocol F}.
Import tapeimage.

Local Abbreviation st := (tapeimage.t (F:=F)).
Implicit Types (s : st) (h : header).

Lemma parsed_tainted h s r s' :
  status_set (recovery s) = true ->
  parsed h s = Return r s' ->
  recovery s' = recovery s /\ parsed h (clean s) = Return r (clean s').
Proof.
  unfold parsed, clean. destruct s as [a f ix cur rec]. run.
  intros Hrec. unfold appended. run.
  destruct rec; try discriminate Hrec; run;
    repeat (match goal with
            | |- context [Z.eqb ?x ?y] => destruct (Z.eqb x y) eqn:?
            | |- context [Z.leb ?x ?y] => destruct (Z.leb x y) eqn:?
            | |- context [Nat.leb ?x ?y] => destruct (Nat.leb x y) eqn:?
            | |- context [record_index.empty ?x] =>
                destruct (record_index.empty x) eqn:?
            end; run);
    intros Heq; try discriminate Heq;
    injection Heq as <- <-; split; reflexivity.
Qed.

Lemma read_header_from_disk_tainted s r s' :
  status_set (recovery s) = true ->
  read_header_from_disk s = Return r s' ->
  recovery s' = recovery s /\
  read_header_from_disk (clean s) = Return r (clean s').
Proof.
  intros Hrec. rewrite !read_header_from_disk_eq.
  change (fp (clean s)) with (fp s).
  destruct (p_readinto (fp s) 12) as [[err b] f'].
  destruct err; try discriminate.
  change (set_fp f' (clean s)) with (clean (set_fp f' s)).
  intros Hp. exact (@parsed_tainted _ (set_fp f' s) r s' Hrec Hp).
Qed.

Lemma read_header_tainted cur s r s' :
  status_set (recovery s) = true ->
  read_header cur s = Return r s' ->
  recovery s' = recovery s /\
  read_header cur (clean s) = Return r (clean s').
Proof.
  intros Hrec. unfold read_header, bind, gets, modify, ret, fp_seek.
  cbv beta.
  change (index (clean s)) with (index s).
  destruct (S (read_head.pos cur) =? record_index.size (index s))%nat;
    cbv beta; change (fp (clean s)) with (fp s).
  - destruct (read_header_from_disk s) as [h s1|e s1|] eqn:Hr; try discriminate.
    intros Heq. injection Heq as <- <-.
    destruct (read_header_from_disk_tainted s Hrec Hr) as [Hk Hc].
    rewrite Hc. split; [exact Hk | reflexivity].
  - destruct (p_seek (fp s) _) as [f'|]; try discriminate.
    intros Heq. injection Heq as <- <-. split; reflexivity.
Qed.

Lemma readinto_loop_tainted fuel :
  forall len bytes_read dst s r s',
    status_set (recovery s) = true ->
    readinto_loop fuel len bytes_read dst s = Return r s' ->
    recovery s' = recovery s /\
    readinto_loop fuel len bytes_read dst (clean s) = Return r (clean s').
Proof.
  induction fuel as [|fuel IH]; intros len br dst s r s' Hrec; [discriminate|].
  cbn [readinto_loop]. unfold bind, gets, modify, ret, throw, fp_readinto.
  cbv beta. change (eof (clean s)) with (eof s).
  destruct (eof s); cbv beta.
  - intros Heq. injection Heq as <- <-. split; reflexivity.
  - change (current (clean s)) with (current s).
    destruct (read_head.exhausted (current s)); cbv beta;
      change (fp (clean s)) with (fp s).
    + destruct (read_header (current s) s) as [u s1|e s1|] eqn:Hr;
        try discriminate.
      destruct (read_header_tainted _ s Hrec Hr) as [Hk Hc].
      rewrite Hc. intros Hl.
      assert (Hrec1 : status_set (recovery s1) = true) by (rewrite Hk; exact Hrec).
      destruct (IH _ _ _ _ _ _ Hrec1 Hl) as [Hk' Hc'].
      split; [congruence | exact Hc'].
    + destruct (p_readinto (fp s) _) as [[err data] f'].
      destruct (read_head.move (current s) _) as [cur'|]; try discriminate.
      change (set_current cur' (set_fp f' (clean s)))
        with (clean (set_current cur' (set_fp f' s))).
      assert (Hrec1 : status_set (recovery (set_current cur' (set_fp f' s))) = true)
        by exact Hrec.
      destruct err;
        try (destruct (Z.of_nat (length data) =? len);
             [intros Heq; injection Heq as <- <-; split; reflexivity
             |intros Hl; destruct (IH _ _ _ _ _ _ Hrec1 Hl) as [Hk' Hc'];
              split; [exact Hk' | exact Hc']]).
      * intros Heq. injection Heq as <- <-. split; reflexivity.
      * destruct (negb (read_head.exhausted cur')); try discriminate.
        intros Heq. injection Heq as <- <-. split; reflexivity.
Qed.

(** C9: whenever the recovery status is set when the public read
    derives its status, that status is the recovery status, whatever the
    byte count and whether or not the read head rests on a file-mark.
    For a reader tainted before the call, the status is the recovery
    status it had, still set afterwards, and the same read by the reader
    with a clean status returns the same byte count and the same bytes,
    with the status the clean rules give: OK for a full read, else EOF on
    a file-mark, else OK-incomplete. *)
Theorem C9_tainted_status_overrides (fuel : nat) (len : Z) (s s' : st)
    (status : lfp_status) (n : Z) (data : list byte) :
  readinto fuel len s = Return (status, n, data) s' ->
  (status_set (recovery s') = true -> status = recovery s') /\
  (status_set (recovery s) = true ->
   status = recovery s /\
   recovery s' = recovery s /\
   readinto fuel len (clean s)
   = Return (if n =? len then LFP_OK
             else if eof s' then LFP_EOF else LFP_OKINCOMPLETE,
             n, data) (clean s')).
Proof.
  unfold readinto, readinto_private, bind, gets, ret.
  destruct (readinto_loop fuel len 0 [] s) as [[n0 d0] s1|e s1|] eqn:Hl;
    try discriminate.
  intros Heq. injection Heq as <- <- <- <-.
  split.
  - intros Hset. unfold readinto_status. rewrite Hset. reflexivity.
  - intros Hset.
    destruct (readinto_loop_tainted _ _ _ _ _ Hset Hl) as [Hk Hc].
    rewrite Hc. unfold readinto_status at 1. rewrite Hk, Hset.
    repeat split; try assumption.
Qed.

End Tainted.

(** C9 on scenario 1 with the first header's type set to 7: the read of
    4 bytes by the tainted reader reports the recovery status with 3 bytes,
    where the clean reader reports EOF with the same 3 bytes. *)
Lemma C9_tainted_status_overrides_witness :
  tapeimage.readinto 7 4 type7_opened
  = Return (LFP_PROTOCOL_TRYRECOVERY, 3, [x41; x42; x43]) type7_indexed /\
  LFP_PROTOCOL_TRYRECOVERY = tapeimage.recovery type7_indexed /\
  LFP_PROTOCOL_TRYRECOVERY = tapeimage.recovery type7_opened /\
  tapeimage.recovery type7_indexed = tapeimage.recovery type7_opened /\
  tapeimage.readinto 7 4 (clean type7_opened)
  = Return (LFP_EOF, 3, [x41; x42; x43]) (clean type7_indexed).
Proof.
  assert (Hrun : tapeimage.readinto 7 4 type7_opened
                 = Return (LFP_PROTOCOL_TRYRECOVERY, 3, [x41; x42; x43]) type7_indexed)
    by (vm_compute; reflexivity).
  split; [exact Hrun|].
  destruct (C9_tainted_status_overrides 7 4 type7_opened Hrun) as [Hend Hstart].
  split; [exact (Hend eq_refl)|].
  exact (Hstart eq_refl).
Defined.
(** ** End of the inner stream inside a record *)

Section InnerEof.

Context {F : Type} {P : lfp_protocol F}.
Import tapeimage.

Local Abbreviation st := (tapeimage.t (F:=F)).


End InnerEof.


(** ** Seek and tell *)

(** The [int] arithmetic of the address map is exact for the positions
    of an index of at most [max_int_records] records. *)
Lemma wrap_int_small (x : Z) :
  -2147483648 <= x <= 2147483647 -> wrap_int x = x.
Proof.
  intros Hx. unfold wrap_int. rewrite Z.mod_small; lia.
Qed.

Lemma headers_upto_small (p : Z) :
  0 <= p < max_int_records ->
  address_map.headers_upto p = 12 * (1 + p).
Proof.
  unfold max_int_records, address_map.headers_upto, header_size. intros Hp.
  rewrite (@wrap_int_small p) by lia.
  rewrite (@wrap_int_small (1 + p)) by lia.
  apply wrap_int_small. lia.
Qed.

Lemma logical_small (m : address_map.t) (a p : Z) :
  0 <= p < max_int_records ->
  address_map.logical m a p = a - 12 * (1 + p) - address_map.zero m.
Proof.
  intros Hp. unfold address_map.logical. rewrite headers_upto_small by exact Hp.
  reflexivity.
Qed.

Lemma physical_small (m : address_map.t) (a p : Z) :
  0 <= p < max_int_records ->
  address_map.physical m a p = a + 12 * (1 + p) + address_map.zero m.
Proof.
  intros Hp. unfold address_map.physical. rewrite headers_upto_small by exact Hp.
  reflexivity.
Qed.

(** Rewrites the address-map operations at the positions that the
    context bounds by [max_int_records] into their exact sums. *)
Ltac int_small :=
  unfold int_sized, max_int_records in *;
  repeat match goal with
  | |- context [address_map.logical ?m ?a ?p] =>
      rewrite (@logical_small m a p) by (unfold max_int_records; lia)
  | |- context [address_map.physical ?m ?a ?p] =>
      rewrite (@physical_small m a p) by (unfold max_int_records; lia)
  | H : context [address_map.logical ?m ?a ?p] |- _ =>
      rewrite (@logical_small m a p) in H by (unfold max_int_records; lia)
  | H : context [address_map.physical ?m ?a ?p] |- _ =>
      rewrite (@physical_small m a p) in H by (unfold max_int_records; lia)
  end.

Section SeekTell.

Context {F : Type} {P : lfp_protocol F}.
Import tapeimage.

Local Abbreviation st := (tapeimage.t (F:=F)).

(** In a valid reader every indexed header has its next past the headers
    up to and including its own. *)
Lemma next_lower_bound (s : st) (p : nat) :
  valid s -> (p < record_index.size (index s))%nat ->
  12 * (Z.of_nat p + 1) + address_map.base (addr s)
  <= next (record_index.at_ (index s) p).
Proof.
  intros Hv. induction p as [|p IH]; intros Hp;
    pose proof (v_bodies Hv Hp) as Hb;
    unfold body_length, body_start, header_size in Hb; [lia|].
  specialize (IH ltac:(lia)). lia.
Qed.

(** In a valid reader the next of every indexed header is non-negative. *)
Lemma next_nonneg (s : st) (p : nat) :
  valid s -> (p < record_index.size (index s))%nat ->
  0 <= next (record_index.at_ (index s) p).
Proof.
  intros Hv Hp. pose proof (next_lower_bound Hv Hp) as Hn.
  pose proof (v_base Hv). lia.
Qed.

Lemma record_end_step (s : st) (p : nat) :
  valid s -> int_sized s -> (S p < record_index.size (index s))%nat ->
  record_end s p <= record_end s (S p).
Proof.
  intros Hv Hs Hp. pose proof (v_bodies Hv Hp) as Hb.
  unfold body_length, body_start in Hb.
  unfold record_end. int_small. unfold header_size in *. lia.
Qed.

Lemma record_end_mono (s : st) (p q : nat) :
  valid s -> int_sized s ->
  (p <= q)%nat -> (q < record_index.size (index s))%nat ->
  record_end s p <= record_end s q.
Proof.
  intros Hv Hs Hpq. induction Hpq as [|q Hpq IH]; intros Hq; [lia|].
  pose proof (record_end_step Hv Hs Hq). specialize (IH ltac:(lia)). lia.
Qed.

Lemma record_end_first (s : st) :
  valid s -> 0 <= record_end s 0.
Proof.
  intros Hv.
  assert (H0 : (0 < record_index.size (index s))%nat)
    by (pose proof (v_pos Hv); lia).
  pose proof (v_bodies Hv H0) as Hb.
  unfold body_length, body_start, address_map.base in Hb.
  unfold record_end. int_small. unfold header_size in *. cbn [Z.of_nat]. lia.
Qed.

(** The offsets of an indexed record are non-negative and fit 32 bits. *)
Lemma in_record_range (s : st) (p : nat) (n : Z) :
  valid s -> int_sized s -> in_record s p n ->
  0 <= n /\ n <= uint32_max /\
  n <= record_end s (record_index.size (index s) - 1).
Proof.
  intros Hv Hs (Hp & Hle & Hlo).
  pose proof (v_base Hv) as Hz. unfold address_map.base in Hz.
  pose proof (v_u32 Hv Hp) as Hu.
  pose proof (record_end_first Hv) as H0.
  assert (Hlast : record_end s p <= record_end s (record_index.size (index s) - 1))
    by (apply record_end_mono; [assumption | assumption | lia | lia]).
  assert (Hn : 0 <= n).
  { destruct p as [|q]; [exact Hlo|].
    assert (record_end s 0 <= record_end s q)
      by (apply record_end_mono; [assumption | assumption | lia | lia]).
    lia. }
  repeat split; try lia.
  unfold record_end in Hle. int_small. lia.
Qed.




Lemma find_if_range (m : address_map.t) (n : Z) (l : list header) :
  forall pos q : nat,
    record_index.find_if m n l pos = Some q ->
    (pos <= q < pos + length l)%nat.
Proof.
  induction l as [|rec tl IH]; intros pos q Hf; cbn in Hf; [discriminate|].
  destruct (n <=? _).
  - injection Hf as <-. cbn. lia.
  - apply IH in Hf. cbn. lia.
Qed.

Lemma find_in_index (ix : record_index.t) (n : Z) (hint q : nat) :
  (hint < record_index.size ix)%nat ->
  record_index.find ix n hint = inr q ->
  (q < record_index.size ix)%nat.
Proof.
  intros Hh. unfold record_index.find.
  destruct (record_index.in_hint ix hint n).
  - intros Heq. injection Heq as <-. exact Hh.
  - destruct (record_index.find_if _ _ _ _) as [c|] eqn:Hf; [|discriminate].
    intros Heq. injection Heq as <-.
    apply find_if_range in Hf. rewrite length_skipn in Hf.
    unfold record_index.size. lia.
Qed.


Lemma seek_with_index_found (s : st) (n : Z) (q : nat) (f' : F) :
  record_index.find (index s) n (read_head.pos (current s)) = inr q ->
  p_seek (fp s) (address_map.physical (addr s) n (Z.of_nat q)) = Some f' ->
  seek_with_index n s
  = Return tt
      (set_current
         (read_head.mk q
            (next (record_index.at_ (index s) q)
             - address_map.physical (addr s) n (Z.of_nat q)))
         (set_fp f' s)).
Proof.
  intros Hfind Hseek.
  unfold seek_with_index, bind, gets, modify, fp_seek. cbv beta.
  rewrite Hfind. cbv beta iota. rewrite Hseek. reflexivity.
Qed.

Lemma seek_already_indexed (fuel : nat) (s : st) (n : Z) :
  n <= uint32_max ->
  (0 < record_index.size (index s))%nat ->
  n <= record_end s (record_index.size (index s) - 1) ->
  seek fuel n s = seek_with_index n s.
Proof.
  intros Hu Hsz Hn. unfold seek.
  destruct (Z.ltb_spec uint32_max n); [lia|].
  unfold bind, gets. cbv beta.
  unfold already_indexed, record_index.back.
  replace (Z.of_nat (record_index.size (index s)) - 1)
    with (Z.of_nat (record_index.size (index s) - 1)) by lia.
  fold (record_end s (record_index.size (index s) - 1)).
  rewrite (proj2 (Z.leb_le _ _) Hn). reflexivity.
Qed.





End SeekTell.

Lemma memfile_seekable (m : memfile.t) : seekable m.
Proof.
  intros off Hoff. cbn. unfold memfile.seek.
  destruct (Z.ltb_spec off 0); [lia | discriminate].
Qed.

Ltac each_record :=
  let p := fresh "p" in
  let Hp := fresh "Hp" in
  let Hc := fresh "Hc" in
  intros p Hp; cbn in Hp;
  do 4 (try (destruct p as [|p]; [vm_compute; intros Hc; discriminate Hc|]));
  exfalso; lia.


Lemma abc_indexed_valid : valid abc_indexed.
Proof.
  constructor; try each_record.
  - reflexivity.
  - cbn; lia.
  - cbn; lia.
  - vm_compute. split; congruence.
Qed.



Lemma abc_indexed_int_sized : int_sized abc_indexed.
Proof. vm_compute. discriminate. Qed.



(** ** Scenario 1 *)

(** C1: on the stream of three single-byte records followed by a
    file-mark, opening a reader and reading with a requested length of 4
    returns 3 bytes, "ABC", with status EOF.  Seven iterations of the read
    loop are enough, and any larger fuel gives the same result. *)
Theorem C1_read_abc_eof :
  lfp_tapeimage_open (Some (memfile.open scenario.abc)) = (Some abc_opened, None) /\
  forall k : nat,
    tapeimage.readinto (7 + k) 4 abc_opened
    = Return (LFP_EOF, 3, [x41; x42; x43]) abc_indexed.
Proof.
  split; [vm_compute; reflexivity|].
  intros k. vm_compute. reflexivity.
Qed.

(** C8: once scenario 1 is fully indexed, [seek 1000], a logical offset
    past the end of the tape image, returns without raising, and the next
    read of 1 byte returns 0 bytes with status EOF. *)
Theorem C8_seek_past_eof :
  forall k k' k'' : nat,
    tapeimage.readinto (7 + k) 4 abc_opened
    = Return (LFP_EOF, 3, [x41; x42; x43]) abc_indexed /\
    tapeimage.seek (S k') 1000 abc_indexed = Return tt abc_indexed /\
    tapeimage.readinto (S k'') 1 abc_indexed = Return (LFP_EOF, 0, []) abc_indexed.
Proof.
  intros k k' k''. repeat split; vm_compute; reflexivity.
Qed.

(** ** The address map *)

(** C6 on the code: at record position 178956970, the first for which
    12 (p + 1) is past the largest [int], the [int] product of the
    address map comes out as -2147483644.  [physical] then takes
    4000000000 to 1852516356 and [logical] takes it to 6147483644, where
    the claim has 4000000000 plus and minus 12 (p + 1) + zero. *)
Theorem C6_address_map_int_overflow :
  address_map.zero (address_map.mk 0) + 12 * (178956970 + 1) <= 4000000000 /\
  address_map.headers_upto 178956970 = -2147483644 /\
  address_map.physical (address_map.mk 0) 4000000000 178956970 = 1852516356 /\
  address_map.logical (address_map.mk 0) 4000000000 178956970 = 6147483644 /\
  address_map.physical (address_map.mk 0) 4000000000 178956970
  <> 4000000000 + (12 * (178956970 + 1) + address_map.zero (address_map.mk 0)) /\
  address_map.logical (address_map.mk 0) 4000000000 178956970
  <> 4000000000 - (12 * (178956970 + 1) + address_map.zero (address_map.mk 0)).
Proof.
  split; [cbn; lia|].
  split; [reflexivity|]. split; [reflexivity|]. split; [reflexivity|].
  split; vm_compute; discriminate.
Qed.

(** X17: the two operations of the address map undo each other at every
    record position, the [int] product being the same in both; and for
    the positions below [max_int_records] one subtracts and the other adds
    exactly 12 (p + 1) + zero. *)
Theorem X17_address_map_within_int (m : address_map.t) (p x : Z) :
  address_map.logical m (address_map.physical m x p) p = x /\
  address_map.physical m (address_map.logical m x p) p = x /\
  (0 <= p < max_int_records ->
   address_map.logical m x p = x - (12 * (p + 1) + address_map.zero m) /\
   address_map.physical m x p = x + (12 * (p + 1) + address_map.zero m)).
Proof.
  split; [unfold address_map.logical, address_map.physical; lia|].
  split; [unfold address_map.logical, address_map.physical; lia|].
  intros Hp. rewrite logical_small, physical_small by exact Hp. lia.
Qed.

(** ** Opening *)

(** C10: [lfp_tapeimage_open] on a null inner stream returns null, and no
    stream is involved; and whenever the constructor throws, whatever the
    exception, [lfp_tapeimage_open] returns null, the stream staying with
    the caller as the constructor left it. *)
Theorem C10_open_null_or_throw :
  forall (F : Type) (P : lfp_protocol F),
    lfp_tapeimage_open (F:=F) None = (None, None) /\
    (forall (f : F) (e : exception) (s : tapeimage.t),
        tapeimage.ctor f = Throw e s ->
        lfp_tapeimage_open (Some f) = (None, Some (tapeimage.fp s))) /\
    (forall f : F,
        fst (lfp_tapeimage_open (Some f)) = None <->
        ~ exists h s, tapeimage.ctor f = Return h s).
Proof.
  intros F P. split; [reflexivity|]. split.
  - intros f e s Hc. unfold lfp_tapeimage_open. rewrite Hc. reflexivity.
  - intros f. unfold lfp_tapeimage_open.
    destruct (tapeimage.ctor f) as [h s|e s|]; cbn; split; intros Hn;
      try reflexivity; try discriminate.
    + exfalso. apply Hn. eauto.
    + intros (h' & s' & Heq). discriminate.
    + intros (h' & s' & Heq). discriminate.
Qed.

(** C10 on an empty memory stream: the constructor throws unexpected EOF
    while reading the first header, and the open returns null. *)
Lemma C10_open_null_or_throw_witness :
  tapeimage.ctor (memfile.open [])
  = Throw unexpected_eof (tapeimage.fresh (memfile.open [])) /\
  lfp_tapeimage_open (Some (memfile.open [])) = (None, Some (memfile.open [])).
Proof.
  split; [reflexivity|].
  exact (proj1 (proj2 (@C10_open_null_or_throw _ memfile.protocol))
           (memfile.open []) unexpected_eof
           (tapeimage.fresh (memfile.open [])) eq_refl).
Defined.

(** ** Monotonicity of the index *)

(** C3, evaluated on the stream [scenario.backwards]: the reader opens,
    a read of 2 bytes returns "A" with status EOF without raising, and the
    index it leaves holds next = 13 followed by next = 5, so it is not
    strictly monotone. *)
Theorem C3_index_not_monotone :
  lfp_tapeimage_open (Some (memfile.open scenario.backwards))
  = (Some backwards_opened, None) /\
  (forall k : nat,
      tapeimage.readinto (3 + k) 2 backwards_opened
      = Return (LFP_EOF, 1, [x41]) backwards_read) /\
  map next (record_index.vec (tapeimage.index backwards_read)) = [13; 5] /\
  ~ monotone (tapeimage.index backwards_read).
Proof.
  split; [vm_compute; reflexivity|].
  split; [intros k; vm_compute; reflexivity|].
  split; [reflexivity|].
  intros Hm.
  assert (H01 : (1 < record_index.size (tapeimage.index backwards_read))%nat)
    by (cbn; lia).
  specialize (Hm 0%nat H01). cbn in Hm. lia.
Qed.

(** ** What reads and seeks keep *)

Section Frame.

Context {F : Type} {P : lfp_protocol F}.
Import tapeimage.

Local Abbreviation st := (tapeimage.t (F:=F)).

(** The outcomes of [read_header_from_disk] on a decoded header: a throw
    leaves the reader as it was but for the taint; a return has appended a
    header of type 0 or 1 that keeps the decoded next and whose prev is
    the next of the second-to-last header indexed before. *)
Lemma parsed_spec (h : header) (s : st) :
  match parsed h s with
  | Return h' s' =>
      exists s2,
        (s2 = s \/ (recovery s = LFP_OK /\
                    s2 = set_recovery LFP_PROTOCOL_TRYRECOVERY s)) /\
        s' = appended h' s2 /\
        (type h' = record \/ type h' = file) /\
        next h' = next h /\
        ((2 <= record_index.size (index s))%nat ->
         prev h' = next (record_index.at_ (index s)
                           (record_index.size (index s) - 2)))
  | Throw _ s' =>
      s' = s \/ (recovery s = LFP_OK /\
                 s' = set_recovery LFP_PROTOCOL_TRYRECOVERY s)
  | OutOfFuel => False
  end.
Proof.
  unfold parsed.
  destruct (Z.eqb_spec (type h) record) as [Ht0|Ht0];
    destruct (Z.eqb_spec (type h) file) as [Ht1|Ht1];
    cbn [orb negb andb];
    destruct (recovery s) eqn:Hrec; cbn [status_set andb];
    try (left; reflexivity);
    cbn [with_type next prev type recovery set_recovery status_set andb];
    (destruct (Z.leb_spec (next h) (prev h));
     [first [left; reflexivity | right; split; reflexivity]|]);
    (destruct (Nat.leb_spec 2 (record_index.size (index s)));
     [ destruct (Z.eqb_spec (prev h)
                   (next (record_index.at_ (index s)
                            (record_index.size (index s) - 2))));
       rewrite ?Hrec; cbn [status_set]
     | destruct (record_index.empty (index s)); cbn [negb andb];
       try destruct (Z.eqb_spec (prev h) (address_map.base (addr s)));
       cbn [negb] ]);
    try (left; reflexivity);
    try (right; split; reflexivity);
    try (eexists; split; [left; reflexivity|];
         split; [reflexivity|]; cbn [with_type with_prev type next prev];
         repeat split; auto; lia);
    try (eexists; split; [right; split; reflexivity|];
         split; [reflexivity|]; cbn [with_type with_prev type next prev];
         repeat split; auto; lia).
Qed.

Lemma read_header_from_disk_spec (s : st) :
  match read_header_from_disk s with
  | Return h' s' =>
      exists f' s2,
        (s2 = set_fp f' s \/
         (recovery s = LFP_OK /\
          s2 = set_recovery LFP_PROTOCOL_TRYRECOVERY (set_fp f' s))) /\
        s' = appended h' s2 /\
        (type h' = record \/ type h' = file) /\
        ((2 <= record_index.size (index s))%nat ->
         prev h' = next (record_index.at_ (index s)
                           (record_index.size (index s) - 2)))
  | Throw _ s' =>
      exists f',
        s' = set_fp f' s \/
        (recovery s = LFP_OK /\
         s' = set_recovery LFP_PROTOCOL_TRYRECOVERY (set_fp f' s))
  | OutOfFuel => False
  end.
Proof.
  rewrite read_header_from_disk_eq.
  destruct (p_readinto (fp s) 12) as [[err b] f'].
  destruct err; try (exists f'; left; reflexivity).
  pose proof (parsed_spec (decode_header b) (set_fp f' s)) as Hp.
  destruct (parsed (decode_header b) (set_fp f' s)) as [h' s'|e s'|];
    [|exists f'; exact Hp|exact Hp].
  destruct Hp as (s2 & Hs2 & Hs' & Hty & _ & Hprev).
  exists f', s2. repeat split; assumption.
Qed.

(** A relation between readers that is reflexive and transitive, that no
    change of the inner stream or of the read head breaks, and that the
    parsing of a header keeps, is kept by every read and seek, also when
    they throw. *)
Section Kept.

Variable R : st -> st -> Prop.
Hypothesis R_refl : forall s, R s s.
Hypothesis R_trans : forall s1 s2 s3, R s1 s2 -> R s2 s3 -> R s1 s3.
Hypothesis R_fp : forall s f, R s (set_fp f s).
Hypothesis R_current : forall s c, R s (set_current c s).
Hypothesis R_parse :
  forall s, after (read_header_from_disk s) (R s).

Lemma kept_fp_seek (off : Z) (s : st) : after (fp_seek off s) (R s).
Proof.
  unfold fp_seek. destruct (p_seek (fp s) off); cbn; auto.
Qed.

Lemma kept_bind {A B : Type} (m : M st A) (k : A -> M st B) (s : st) :
  after (m s) (R s) ->
  (forall a s', m s = Return a s' -> after (k a s') (R s')) ->
  after (bind m k s) (R s).
Proof.
  unfold bind. intros Hm Hk.
  destruct (m s) as [a s'|e s'|] eqn:Hms; cbn in *; auto.
  specialize (Hk a s' eq_refl).
  destruct (k a s') as [b s''|e s''|]; cbn in *; eauto.
Qed.

Lemma kept_read_header (cur : read_head.t) (s : st) :
  after (read_header cur s) (R s).
Proof.
  unfold read_header. apply kept_bind; [cbn; auto|].
  intros ix s' Heq. injection Heq as <- <-.
  destruct (S (read_head.pos cur) =? record_index.size (index s))%nat.
  - apply kept_bind; [apply R_parse|]. intros; cbn; auto.
  - apply kept_bind; [apply kept_fp_seek|]. intros; cbn; auto.
Qed.

Lemma kept_readinto_loop (fuel : nat) :
  forall (len bytes_read : Z) (dst : list byte) (s : st),
    after (readinto_loop fuel len bytes_read dst s) (R s).
Proof.
  induction fuel as [|fuel IH]; intros len br dst s; [exact I|].
  cbn [readinto_loop].
  apply kept_bind; [cbn; auto|].
  intros at_eof s0 Heq. injection Heq as <- <-.
  destruct (eof s); [cbn; auto|].
  apply kept_bind; [cbn; auto|].
  intros cur s0 Heq. injection Heq as <- <-.
  destruct (read_head.exhausted (current s)).
  - apply kept_bind; [apply kept_read_header|]. intros; apply IH.
  - apply kept_bind.
    + unfold fp_readinto. destruct (p_readinto (fp s) _) as [[err data] f'].
      cbn. auto.
    + intros [err data] s1 _.
      destruct (read_head.move (current s) _) as [cur'|]; [|cbn; auto].
      apply kept_bind; [cbn; auto|].
      intros [] s2 _.
      destruct err; try (cbn; auto; fail);
        try (destruct (Z.of_nat (length data) =? len); [cbn; auto|apply IH]).
      destruct (negb (read_head.exhausted cur')); cbn; auto.
Qed.

Lemma kept_readinto (fuel : nat) (len : Z) (s : st) :
  after (readinto fuel len s) (R s).
Proof.
  unfold readinto, readinto_private.
  apply kept_bind; [apply kept_readinto_loop|].
  intros [n dst] s' _. cbn. auto.
Qed.

Lemma kept_seek_with_index (n : Z) (s : st) :
  after (seek_with_index n s) (R s).
Proof.
  unfold seek_with_index.
  apply kept_bind; [cbn; auto|]. intros ix s0 Heq. injection Heq as <- <-.
  apply kept_bind; [cbn; auto|]. intros cur s0 Heq. injection Heq as <- <-.
  destruct (record_index.find (index s) n (read_head.pos (current s)));
    [cbn; auto|].
  apply kept_bind; [cbn; auto|]. intros a s0 Heq. injection Heq as <- <-.
  apply kept_bind; [apply kept_fp_seek|]. intros; cbn; auto.
Qed.

Lemma kept_seek_chase (fuel : nat) :
  forall (n : Z) (s : st), after (seek_chase fuel n s) (R s).
Proof.
  induction fuel as [|fuel IH]; intros n s; [exact I|].
  cbn [seek_chase].
  apply kept_bind; [cbn; auto|]. intros ix s0 Heq. injection Heq as <- <-.
  apply kept_bind; [cbn; auto|]. intros a s0 Heq. injection Heq as <- <-.
  destruct (_ <=? _).
  - apply kept_bind; [apply kept_fp_seek|]. intros; cbn; auto.
  - destruct (_ =? _); [cbn; auto|].
    apply kept_bind; [apply kept_fp_seek|]. intros _ s1 _.
    apply kept_bind; [apply R_parse|]. intros; apply IH.
Qed.

Lemma kept_seek (fuel : nat) (n : Z) (s : st) :
  after (seek fuel n s) (R s).
Proof.
  unfold seek. destruct (uint32_max <? n); [cbn; auto|].
  apply kept_bind; [cbn; auto|]. intros b s0 Heq. injection Heq as <- <-.
  destruct (already_indexed s n); [apply kept_seek_with_index|].
  apply kept_bind; [cbn; auto|]. intros ix s0 Heq. injection Heq as <- <-.
  apply kept_bind; [cbn; auto|]. intros _ s1 _. apply kept_seek_chase.
Qed.

End Kept.

End Frame.

Ltac same_index :=
  split; [exists []; cbn; symmetry; apply app_nil_r | split; reflexivity].

Section KeptProperties.

Context {F : Type} {P : lfp_protocol F}.
Import tapeimage.

Local Abbreviation st := (tapeimage.t (F:=F)).

Lemma extends_refl (s : st) : extends s s.
Proof. same_index. Qed.

Lemma extends_trans (s1 s2 s3 : st) :
  extends s1 s2 -> extends s2 s3 -> extends s1 s3.
Proof.
  intros ([l1 H1] & Ha1 & Hi1) ([l2 H2] & Ha2 & Hi2).
  split; [|split; congruence].
  exists (l1 ++ l2). rewrite H2, H1, app_assoc. reflexivity.
Qed.

Lemma extends_parse (s : st) : after (read_header_from_disk s) (extends s).
Proof.
  pose proof (read_header_from_disk_spec s) as Hs.
  destruct (read_header_from_disk s) as [h' s'|e s'|]; cbn; [| |exact I].
  - destruct Hs as (f' & s2 & Hs2 & -> & _).
    destruct Hs2 as [->|[_ ->]];
      (split; [exists [h']; reflexivity | split; reflexivity]).
  - destruct Hs as (f' & [->|[_ ->]]); same_index.
Qed.

Lemma taints_trans (s1 s2 s3 : st) :
  taints s1 s2 -> taints s2 s3 -> taints s1 s3.
Proof.
  unfold taints. intros [H1|[H1 H1']] [H2|[H2 H2']].
  - left. congruence.
  - right. split; congruence.
  - right. split; congruence.
  - congruence.
Qed.

Lemma taints_parse (s : st) : after (read_header_from_disk s) (taints s).
Proof.
  pose proof (read_header_from_disk_spec s) as Hs.
  destruct (read_header_from_disk s) as [h' s'|e s'|]; cbn; [| |exact I].
  - destruct Hs as (f' & s2 & Hs2 & -> & _).
    destruct Hs2 as [->|[Hc ->]]; [left; reflexivity|].
    right. split; [exact Hc | reflexivity].
  - destruct Hs as (f' & [->|[Hc ->]]); [left; reflexivity|].
    right. split; [exact Hc | reflexivity].
Qed.

Lemma at_push_back_old (ix : record_index.t) (h : header) (i : nat) :
  (i < record_index.size ix)%nat ->
  record_index.at_ (record_index.push_back ix h) i = record_index.at_ ix i.
Proof.
  intros Hi. unfold record_index.at_, record_index.push_back.
  cbn [record_index.vec]. apply app_nth1. exact Hi.
Qed.

Lemma at_push_back_new (ix : record_index.t) (h : header) :
  record_index.at_ (record_index.push_back ix h) (record_index.size ix) = h.
Proof.
  unfold record_index.at_, record_index.push_back, record_index.size.
  cbn [record_index.vec]. apply nth_middle.
Qed.

Lemma size_push_back_S (ix : record_index.t) (h : header) :
  record_index.size (record_index.push_back ix h) = S (record_index.size ix).
Proof.
  unfold record_index.push_back, record_index.size. cbn [record_index.vec].
  rewrite length_app. cbn [length]. lia.
Qed.

Lemma linked_appended (h' : header) (s2 : st) :
  linked s2 ->
  (type h' = record \/ type h' = file) ->
  ((2 <= record_index.size (index s2))%nat ->
   prev h' = next (record_index.at_ (index s2)
                     (record_index.size (index s2) - 2))) ->
  linked (appended h' s2).
Proof.
  intros [Hty Hbl] Hh Hprev. unfold linked, appended.
  cbn [index set_current set_index]. rewrite size_push_back_S.
  split.
  - intros i Hi.
    destruct (Nat.eq_dec i (record_index.size (index s2))) as [->|Hne].
    + rewrite at_push_back_new. exact Hh.
    + rewrite at_push_back_old by lia. apply Hty. lia.
  - intros i Hi.
    destruct (Nat.eq_dec (S (S i)) (record_index.size (index s2))) as [Heq|Hne].
    + rewrite Heq, at_push_back_new, at_push_back_old by lia.
      rewrite Hprev by lia. f_equal. f_equal. lia.
    + rewrite !at_push_back_old by lia. apply Hbl. lia.
Qed.

Lemma linked_parse (s : st) :
  after (read_header_from_disk s) (fun s' => linked s -> linked s').
Proof.
  pose proof (read_header_from_disk_spec s) as Hs.
  destruct (read_header_from_disk s) as [h' s'|e s'|]; cbn; [| |exact I].
  - destruct Hs as (f' & s2 & Hs2 & -> & Hty & Hprev).
    intros Hl. destruct Hs2 as [->|[_ ->]];
      apply linked_appended; auto.
  - destruct Hs as (f' & [->|[_ ->]]); auto.
Qed.

(** X1: whatever a read or a seek does, and also when it throws, the index
    afterwards is the index before with headers appended at its end, and
    neither the reader's address map nor the index's copy has changed. *)
Theorem X1_index_append_only (fuel : nat) (len n : Z) (s : st) :
  after (readinto fuel len s) (extends s) /\
  after (seek fuel n s) (extends s).
Proof.
  split.
  - apply (@kept_readinto _ _ extends extends_refl extends_trans);
      [intros; same_index | intros; same_index | apply extends_parse].
  - apply (@kept_seek _ _ extends extends_refl extends_trans);
      [intros; same_index | intros; same_index | apply extends_parse].
Qed.

(** X2: a read or a seek, returning or throwing, either leaves the
    recovery status as it was or takes it from clean to tainted; a status
    that is set is never cleared or replaced. *)
Theorem X2_taint_only_grows (fuel : nat) (len n : Z) (s : st) :
  after (readinto fuel len s) (taints s) /\
  after (seek fuel n s) (taints s) /\
  (status_set (recovery s) = true ->
   after (readinto fuel len s) (fun s' => recovery s' = recovery s) /\
   after (seek fuel n s) (fun s' => recovery s' = recovery s)).
Proof.
  assert (Hr : after (readinto fuel len s) (taints s)).
  { apply (@kept_readinto _ _ taints (fun s => or_introl eq_refl) taints_trans);
      [intros; left; reflexivity | intros; left; reflexivity
      | apply taints_parse]. }
  assert (Hk : after (seek fuel n s) (taints s)).
  { apply (@kept_seek _ _ taints (fun s => or_introl eq_refl) taints_trans);
      [intros; left; reflexivity | intros; left; reflexivity
      | apply taints_parse]. }
  split; [exact Hr|]. split; [exact Hk|].
  intros Hset.
  assert (Hstay : forall s', taints s s' -> recovery s' = recovery s).
  { intros s' [Heq|[Hc _]]; [exact Heq|]. rewrite Hc in Hset. discriminate. }
  split.
  - destruct (readinto fuel len s); cbn in *; auto.
  - destruct (seek fuel n s); cbn in *; auto.
Qed.

Lemma linked_fresh (f : F) : linked (fresh f).
Proof.
  split; intros i Hi; cbn in Hi; lia.
Qed.

(** X3: the index the constructor leaves is linked, and reads and seeks,
    returning or throwing, keep it linked: every indexed header has type 0
    or 1, and from the third header on, prev is the next of the header two
    places before. *)
Theorem X3_index_stays_linked (f : F) (fuel : nat) (len n : Z) (s : st) :
  after (ctor f) linked /\
  (linked s ->
   after (readinto fuel len s) linked /\
   after (seek fuel n s) linked).
Proof.
  split.
  - unfold ctor. pose proof (linked_parse (fresh f)) as Hp.
    destruct (read_header_from_disk (fresh f)); cbn in *;
      auto using linked_fresh.
  - intros Hl.
    assert (Hr : after (readinto fuel len s) (fun s' => linked s -> linked s')).
    { apply (@kept_readinto _ _ (fun s s' => linked s -> linked s'));
        [auto | auto | auto | auto | apply linked_parse]. }
    assert (Hk : after (seek fuel n s) (fun s' => linked s -> linked s')).
    { apply (@kept_seek _ _ (fun s s' => linked s -> linked s'));
        [auto | auto | auto | auto | apply linked_parse]. }
    split.
    + destruct (readinto fuel len s); cbn in *; auto.
    + destruct (seek fuel n s); cbn in *; auto.
Qed.

(** *** The read head stays on an indexed record *)

Lemma on_record_bind {A B : Type} (m : M st A) (k : A -> M st B) (s : st) :
  after (m s) on_record ->
  (forall a s', m s = Return a s' -> on_record s' -> after (k a s') on_record) ->
  after (bind m k s) on_record.
Proof.
  unfold bind. intros Hm Hk.
  destruct (m s) as [a s'|e s'|] eqn:Hms; cbn in *; auto.
Qed.

Lemma on_record_parse (s : st) :
  on_record s -> after (read_header_from_disk s) on_record.
Proof.
  intros [Hp Ha].
  pose proof (read_header_from_disk_spec s) as Hs.
  destruct (read_header_from_disk s) as [h' s'|e s'|]; cbn; [| |exact I].
  - destruct Hs as (f' & s2 & Hs2 & -> & _).
    destruct Hs2 as [->|[_ ->]]; unfold on_record, appended;
      cbn [current index addr set_current set_index set_fp set_recovery
           read_head.pos];
      rewrite size_push_back_S; (split; [lia | exact Ha]).
  - destruct Hs as (f' & [->|[_ ->]]); split; assumption.
Qed.

Lemma on_record_fp_seek (off : Z) (s : st) :
  on_record s -> after (fp_seek off s) on_record.
Proof.
  intros Ho. unfold fp_seek. destruct (p_seek (fp s) off); cbn; exact Ho.
Qed.

Lemma on_record_read_header (s : st) :
  on_record s -> after (read_header (current s) s) on_record.
Proof.
  intros Ho. unfold read_header.
  apply on_record_bind; [exact Ho|].
  intros ix s' Heq _. injection Heq as <- <-.
  destruct (Nat.eqb_spec (S (read_head.pos (current s)))
              (record_index.size (index s))) as [Hlast|Hmore].
  - apply on_record_bind; [apply on_record_parse; exact Ho|].
    intros h s' _ Ho'. exact Ho'.
  - apply on_record_bind; [apply on_record_fp_seek; exact Ho|].
    intros [] s' Hseek _. cbn.
    unfold fp_seek in Hseek. destruct (p_seek (fp s) _); [|discriminate].
    injection Hseek as <-. destruct Ho as [Hp Ha].
    split; [cbn; lia | exact Ha].
Qed.

Lemma on_record_readinto_loop (fuel : nat) :
  forall (len bytes_read : Z) (dst : list byte) (s : st),
    on_record s ->
    after (readinto_loop fuel len bytes_read dst s) on_record.
Proof.
  induction fuel as [|fuel IH]; intros len br dst s Ho; [exact I|].
  cbn [readinto_loop].
  apply on_record_bind; [exact Ho|].
  intros at_eof s0 Heq _. injection Heq as <- <-.
  destruct (eof s); [exact Ho|].
  apply on_record_bind; [exact Ho|].
  intros cur s0 Heq _. injection Heq as <- <-.
  destruct (read_head.exhausted (current s)).
  - apply on_record_bind; [apply on_record_read_header; exact Ho|].
    intros [] s' _ Ho'. apply IH. exact Ho'.
  - unfold fp_readinto, bind.
    destruct (p_readinto (fp s) _) as [[err data] f'].
    unfold read_head.move.
    destruct (_ <? 0); [exact Ho|].
    cbn [modify].
    assert (Ho' : on_record
                    (set_current
                       (read_head.mk (read_head.pos (current s))
                          (read_head.remaining (current s)
                           - Z.of_nat (length data)))
                       (set_fp f' s))) by exact Ho.
    destruct err; try exact Ho';
      try (destruct (Z.of_nat (length data) =? len);
           [exact Ho' | apply IH; exact Ho']).
    destruct (negb _); exact Ho'.
Qed.

Lemma on_record_seek_chase (fuel : nat) :
  forall (n : Z) (s : st),
    on_record s -> after (seek_chase fuel n s) on_record.
Proof.
  induction fuel as [|fuel IH]; intros n s Ho; [exact I|].
  cbn [seek_chase]. unfold bind at 1 2, gets.
  assert (Hlast : on_record
                    (set_current
                       (read_head.mk (record_index.size (index s) - 1)
                          (next (record_index.at_ (index s)
                                   (record_index.size (index s) - 1))
                           - address_map.physical (addr s) n
                               (Z.of_nat (record_index.size (index s) - 1))))
                       s)).
  { destruct Ho as [Hp Ha]. split; [cbn; lia | exact Ha]. }
  destruct (_ <=? _).
  - unfold bind, fp_seek. destruct (p_seek (fp s) _); [|exact Ho].
    exact Hlast.
  - destruct (_ =? _); [exact Ho|].
    apply on_record_bind; [apply on_record_fp_seek; exact Ho|].
    intros [] s1 _ Ho1.
    apply on_record_bind; [apply on_record_parse; exact Ho1|].
    intros h s2 _ Ho2. apply IH. exact Ho2.
Qed.

Lemma on_record_seek (fuel : nat) (n : Z) (s : st) :
  on_record s -> after (seek fuel n s) on_record.
Proof.
  intros Ho. unfold seek. destruct (uint32_max <? n); [exact Ho|].
  unfold bind at 1, gets.
  destruct (already_indexed s n).
  - unfold seek_with_index, bind, gets, modify, fp_seek.
    destruct (record_index.find (index s) n (read_head.pos (current s)))
      as [e|q] eqn:Hf; [exact Ho|].
    destruct (p_seek (fp s) _); [|exact Ho].
    destruct Ho as [Hp Ha]. split; [|exact Ha].
    exact (find_in_index _ _ Hp Hf).
  - unfold bind at 1 2, gets, modify.
    apply on_record_seek_chase.
    destruct Ho as [Hp Ha]. split; [cbn; lia | exact Ha].
Qed.

(** X4: the reader a successful constructor leaves has its read head on
    an indexed record, and reads and seeks, returning or throwing, keep it
    there: the iterator of the read head never leaves the index. *)
Theorem X4_read_head_stays_indexed (f : F) (fuel : nat) (len n : Z) (s : st) :
  (forall h s0, ctor f = Return h s0 -> on_record s0) /\
  (on_record s ->
   after (readinto fuel len s) on_record /\
   after (seek fuel n s) on_record).
Proof.
  split.
  - unfold ctor. intros h s0 Hc.
    pose proof (read_header_from_disk_spec (fresh f)) as Hs.
    rewrite Hc in Hs. destruct Hs as (f' & s2 & Hs2 & -> & _).
    destruct Hs2 as [->|[_ ->]]; split; cbn; first [lia | reflexivity].
  - intros Ho. split.
    + unfold readinto, readinto_private.
      apply on_record_bind; [apply on_record_readinto_loop; exact Ho|].
      intros [n0 dst] s' _ Ho'. exact Ho'.
    + apply on_record_seek. exact Ho.
Qed.

End KeptProperties.

(** ** The index lookup *)

Section Lookup.

Context {F : Type} {P : lfp_protocol F}.
Import tapeimage.

Local Abbreviation st := (tapeimage.t (F:=F)).

(** On a range where [less] fails from [k] on, [std::lower_bound] does
    not land past [k]. *)
Lemma lower_bound_from_partition (ix : record_index.t) (n : Z) (k : nat) :
  (forall i : nat, (k <= i < record_index.size ix)%nat ->
     record_index.less ix (record_index.at_ ix i) n = false) ->
  forall fuel first len : nat,
    (first <= k)%nat -> (first + len <= record_index.size ix)%nat ->
    (record_index.lower_bound_from fuel ix n first len <= k)%nat.
Proof.
  intros Hk. induction fuel as [|fuel IH]; intros first len Hf Hl;
    cbn [record_index.lower_bound_from]; [exact Hf|].
  destruct len as [|len']; [exact Hf|].
  pose proof (Nat.lt_div2 (S len') ltac:(lia)) as Hhalf.
  destruct (record_index.less ix
              (record_index.at_ ix (first + Nat.div2 (S len'))) n) eqn:Hless.
  - assert (Hlt : (first + Nat.div2 (S len') < k)%nat).
    { destruct (Nat.lt_ge_cases (first + Nat.div2 (S len')) k) as [Hlt|Hge];
        [exact Hlt|].
      rewrite Hk in Hless by lia. discriminate. }
    apply IH; lia.
  - apply IH; lia.
Qed.

(** [std::find_if] returns the first element of the range that passes. *)
Lemma find_if_first (m : address_map.t) (n : Z) (l : list header) :
  forall pos j : nat,
    (j < length l)%nat ->
    (forall k : nat, (k < j)%nat ->
       address_map.logical m (next (nth k l header0)) (Z.of_nat (pos + k)) < n) ->
    n <= address_map.logical m (next (nth j l header0)) (Z.of_nat (pos + j)) ->
    record_index.find_if m n l pos = Some (pos + j)%nat.
Proof.
  induction l as [|rec tl IH]; intros pos j Hj Hbefore Hat; cbn in Hj; [lia|].
  cbn [record_index.find_if].
  destruct j as [|j'].
  - rewrite Nat.add_0_r in *. cbn [nth] in Hat.
    rewrite (proj2 (Z.leb_le _ _) Hat). reflexivity.
  - pose proof (Hbefore 0%nat ltac:(lia)) as H0.
    rewrite Nat.add_0_r in H0. cbn [nth] in H0.
    rewrite (proj2 (Z.leb_gt _ _) H0).
    replace (pos + S j')%nat with (S pos + j')%nat by lia.
    apply IH; [lia | |].
    + intros k Hk. specialize (Hbefore (S k) ltac:(lia)). cbn [nth] in Hbefore.
      replace (S pos + k)%nat with (pos + S k)%nat by lia. exact Hbefore.
    + cbn [nth] in Hat.
      replace (S pos + j')%nat with (pos + S j')%nat by lia. exact Hat.
Qed.

Lemma find_if_all_before (m : address_map.t) (n : Z) (l : list header) :
  forall pos : nat,
    (forall k : nat, (k < length l)%nat ->
       address_map.logical m (next (nth k l header0)) (Z.of_nat (pos + k)) < n) ->
    record_index.find_if m n l pos = None.
Proof.
  induction l as [|rec tl IH]; intros pos Hall; [reflexivity|].
  cbn [record_index.find_if].
  pose proof (Hall 0%nat ltac:(cbn; lia)) as H0.
  rewrite Nat.add_0_r in H0. cbn [nth] in H0.
  rewrite (proj2 (Z.leb_gt _ _) H0).
  apply IH. intros k Hk. specialize (Hall (S k) ltac:(cbn; lia)).
  cbn [nth] in Hall.
  replace (S pos + k)%nat with (pos + S k)%nat by lia. exact Hall.
Qed.

Lemma next_le_of_end_le (s : st) (p q : nat) :
  int_sized s ->
  (p <= q < record_index.size (index s))%nat ->
  record_end s p <= record_end s q ->
  next (record_index.at_ (index s) p) <= next (record_index.at_ (index s) q).
Proof.
  intros Hs Hpq. unfold record_end. int_small. lia.
Qed.

Lemma find_locates (s : st) (p hint : nat) (n : Z) :
  valid s ->
  int_sized s ->
  in_record s p n ->
  (hint < record_index.size (index s))%nat ->
  record_index.find (index s) n hint = inr p.
Proof.
  intros Hv Hs (Hp & Hle & Hlo) Hh.
  pose proof (v_index_addr Hv) as Ha.
  assert (Hbefore : forall q : nat, (q < p)%nat -> record_end s q < n).
  { intros q Hq. destruct p as [|p']; [lia|].
    assert (record_end s q <= record_end s p')
      by (apply record_end_mono; [assumption | assumption | lia | lia]).
    lia. }
  assert (Hafter : forall q : nat,
             (p <= q < record_index.size (index s))%nat -> n <= record_end s q).
  { intros q Hq.
    assert (record_end s p <= record_end s q)
      by (apply record_end_mono; [assumption | assumption | lia | lia]).
    lia. }
  unfold record_index.find.
  destruct (record_index.in_hint (index s) hint n) eqn:Hin.
  - f_equal. unfold record_index.in_hint in Hin. rewrite Ha in Hin.
    fold (record_end s hint) in Hin.
    destruct hint as [|q].
    + cbn [Z.of_nat Z.eqb] in Hin. apply Z.gtb_lt in Hin.
      destruct p as [|p']; [reflexivity|].
      pose proof (Hbefore 0%nat ltac:(lia)). lia.
    + destruct (Z.eqb_spec (Z.of_nat (S q)) 0) as [Hz|_]; [lia|].
      replace (S q - 1)%nat with q in Hin by lia.
      replace (Z.of_nat (S q) - 1) with (Z.of_nat q) in Hin by lia.
      fold (record_end s q) in Hin.
      apply andb_true_iff in Hin. destruct Hin as [Hgt Hle'].
      apply Z.gtb_lt in Hgt. apply Z.leb_le in Hle'.
      destruct (Nat.lt_trichotomy (S q) p) as [Hlt|[Heq|Hgt']];
        [|exact Heq|].
      * pose proof (Hbefore (S q) Hlt). lia.
      * pose proof (Hafter q ltac:(lia)). lia.
  - set (lower := record_index.lower_bound (index s) n).
    assert (Hlow : (lower <= p)%nat).
    { unfold lower, record_index.lower_bound.
      apply lower_bound_from_partition; [|lia|lia].
      intros i Hi. unfold record_index.less. rewrite Ha. apply Z.ltb_ge.
      pose proof (Hafter i Hi) as Hn.
      unfold record_end in *. int_small. lia. }
    rewrite (@find_if_first (record_index.addr (index s)) n
               (skipn lower (record_index.vec (index s))) lower (p - lower)%nat);
      [f_equal; lia | | |].
    + rewrite length_skipn. unfold record_index.size in Hp. lia.
    + intros k Hk. rewrite nth_skipn, Ha.
      pose proof (Hbefore (lower + k)%nat ltac:(lia)) as Hb.
      exact Hb.
    + rewrite nth_skipn, Ha.
      replace (lower + (p - lower))%nat with p by lia. exact Hle.
Qed.

(** X5: in a valid reader whose index is within [max_int_records]
    records, for an offset that lies within the indexed record [p],
    [record_index::find] returns [p], whatever indexed record the hint
    is. *)
Theorem X5_find_locates_record (s : st) (p hint : nat) (n : Z) :
  valid s ->
  int_sized s ->
  in_record s p n ->
  (hint < record_index.size (index s))%nat ->
  record_index.find (index s) n hint = inr p.
Proof. apply find_locates. Qed.

(** X6: in a valid reader whose index is within [max_int_records]
    records, [record_index::find] throws the logic error, whatever
    indexed record the hint is, for an offset past the end of the last
    indexed record. *)
Theorem X6_find_beyond_index (s : st) (hint : nat) (n : Z) :
  valid s ->
  int_sized s ->
  (hint < record_index.size (index s))%nat ->
  record_end s (record_index.size (index s) - 1) < n ->
  record_index.find (index s) n hint = inl logic_error.
Proof.
  intros Hv Hs Hh Hn.
  pose proof (v_index_addr Hv) as Ha.
  assert (Hall : forall q : nat,
             (q < record_index.size (index s))%nat -> record_end s q < n).
  { intros q Hq.
    assert (record_end s q <= record_end s (record_index.size (index s) - 1))
      by (apply record_end_mono; [assumption | assumption | lia | lia]).
    lia. }
  unfold record_index.find.
  assert (Hin : record_index.in_hint (index s) hint n = false).
  { unfold record_index.in_hint. rewrite Ha. fold (record_end s hint).
    pose proof (Hall hint Hh) as Hhint.
    destruct (Z.of_nat hint =? 0).
    - rewrite Z.gtb_ltb. apply Z.ltb_ge. lia.
    - apply andb_false_iff. right. apply Z.leb_gt. exact Hhint. }
  rewrite Hin.
  rewrite find_if_all_before; [reflexivity|].
  intros k Hk. rewrite length_skipn in Hk. rewrite nth_skipn, Ha.
  apply (Hall (record_index.lower_bound (index s) n + k)%nat).
  unfold record_index.size. lia.
Qed.

(** X7: in a valid reader whose index is within [max_int_records]
    records, over a stream that accepts non-negative offsets, a seek to
    an offset [n] within the indexed record [p] moves
    the inner stream to the physical offset [n + 12 (p + 1) + zero], puts
    the read head on record [p] with the bytes from [n] to the record's end
    remaining, changes nothing else, and leaves a valid reader. *)
Theorem X7_seek_lands_in_record (fuel : nat) (s : st) (p : nat) (n : Z) :
  valid s ->
  int_sized s ->
  seekable (fp s) ->
  in_record s p n ->
  exists f' : F,
    p_seek (fp s) (n + 12 * (Z.of_nat p + 1) + address_map.zero (addr s))
    = Some f' /\
    seek fuel n s
    = Return tt (set_current (read_head.mk p (record_end s p - n)) (set_fp f' s)) /\
    valid (set_current (read_head.mk p (record_end s p - n)) (set_fp f' s)).
Proof.
  intros Hv Hs Hseekable Hin.
  destruct (in_record_range Hv Hs Hin) as (Hn0 & Hu & Hn).
  assert (Hp0 : (p < record_index.size (index s))%nat) by exact (proj1 Hin).
  assert (Hsz : (0 < record_index.size (index s))%nat)
    by (pose proof (v_pos Hv); lia).
  pose proof (v_base Hv) as Hz. unfold address_map.base in Hz.
  assert (Hphys : address_map.physical (addr s) n (Z.of_nat p)
                  = n + 12 * (Z.of_nat p + 1) + address_map.zero (addr s)).
  { int_small. lia. }
  destruct (p_seek (fp s) (n + 12 * (Z.of_nat p + 1) + address_map.zero (addr s)))
    as [f'|] eqn:Hps.
  2:{ exfalso. revert Hps. apply Hseekable. lia. }
  exists f'. split; [reflexivity|].
  assert (Hrem : next (record_index.at_ (index s) p)
                 - address_map.physical (addr s) n (Z.of_nat p)
                 = record_end s p - n).
  { unfold record_end. int_small. lia. }
  split.
  - rewrite (seek_already_indexed fuel s Hu Hsz Hn).
    rewrite (@seek_with_index_found _ _ s n p f').
    + rewrite Hrem. reflexivity.
    + apply find_locates; [assumption | assumption | assumption | exact (v_pos Hv)].
    + rewrite Hphys. exact Hps.
  - destruct Hin as (Hp & Hle & Hlo).
    constructor; cbn [index addr current set_current set_fp
                      read_head.pos read_head.remaining].
    + exact (v_index_addr Hv).
    + exact (v_base Hv).
    + exact Hp.
    + exact (v_bodies Hv).
    + exact (v_u32 Hv).
    + change (0 <= record_end s p - n <= body_length s p).
      split; [lia|].
      unfold body_length, body_start.
      destruct p as [|q].
      * unfold record_end in *. int_small.
        unfold address_map.base, header_size in *. cbn [Z.of_nat] in *. lia.
      * unfold record_end in *. int_small. unfold header_size in *. lia.
Qed.

End Lookup.

(** ** Reads and seeks at the ends *)

Section Edges.

Context {F : Type} {P : lfp_protocol F}.
Import tapeimage.

Local Abbreviation st := (tapeimage.t (F:=F)).

Lemma readinto_at_eof (fuel : nat) (len : Z) (s : st) :
  eof s = true ->
  readinto (S fuel) len s
  = Return (if status_set (recovery s) then recovery s
            else if 0 =? len then LFP_OK else LFP_EOF, 0, []) s.
Proof.
  intros Heof. unfold readinto, readinto_private. cbn [readinto_loop].
  unfold bind, gets, ret. rewrite Heof. cbv beta iota.
  unfold readinto_status. rewrite Heof. reflexivity.
Qed.

(** X8: when the last indexed header is a file-mark, a seek to an offset
    past the logical end that the address map gives the last indexed
    record returns without touching the inner stream: the read head is
    put on the file-mark with nothing remaining, and the following read of
    any length returns no byte and leaves the reader as it is, with status
    EOF for a clean reader asked for at least one byte.  The end is
    [record_end], computed as the source computes it, [int] product
    included; for an index within [max_int_records] records it is the
    number of payload bytes indexed. *)
Theorem X8_seek_past_file_mark (fuel fuel' : nat) (s : st) (n len : Z) :
  (0 < record_index.size (index s))%nat ->
  type (record_index.back (index s)) = file ->
  record_end s (record_index.size (index s) - 1) < n ->
  n <= uint32_max ->
  seek (S fuel) n s
  = Return tt
      (set_current (read_head.mk (record_index.size (index s) - 1) 0) s) /\
  readinto (S fuel') len
    (set_current (read_head.mk (record_index.size (index s) - 1) 0) s)
  = Return (if status_set (recovery s) then recovery s
            else if 0 =? len then LFP_OK else LFP_EOF, 0, [])
      (set_current (read_head.mk (record_index.size (index s) - 1) 0) s).
Proof.
  intros Hsz Hfile Hn Hu.
  assert (Hphys : next (record_index.at_ (index s) (record_index.size (index s) - 1))
                  < address_map.physical (addr s) n
                      (Z.of_nat (record_index.size (index s) - 1))).
  { unfold record_end, address_map.logical, address_map.physical in *. lia. }
  split.
  - unfold seek. destruct (Z.ltb_spec uint32_max n); [lia|].
    unfold bind at 1, gets.
    assert (Hidx : already_indexed s n = false).
    { unfold already_indexed, record_index.back. apply Z.leb_gt.
      replace (Z.of_nat (record_index.size (index s)) - 1)
        with (Z.of_nat (record_index.size (index s) - 1)) by lia.
      exact Hn. }
    rewrite Hidx. unfold bind at 1 2, gets, modify.
    cbn [seek_chase]. unfold bind, gets, ret.
    cbn [index addr set_current].
    rewrite (proj2 (Z.leb_gt _ _) Hphys).
    unfold record_index.back in Hfile. rewrite Hfile, Z.eqb_refl.
    reflexivity.
  - refine (@readinto_at_eof fuel' len
              (set_current (read_head.mk (record_index.size (index s) - 1) 0) s) _).
    unfold eof, current_header.
    cbn [index current set_current read_head.pos].
    unfold record_index.back in Hfile. rewrite Hfile. reflexivity.
Qed.

(** X9: a read by a reader whose read head is on a file-mark returns no
    byte and leaves the reader, inner stream included, exactly as it was,
    so that it can be repeated at will; its status is the recovery status
    if that is set, else OK for a request of 0 bytes and EOF for any
    other. *)
Theorem X9_read_at_file_mark (fuel fuel' : nat) (len len' : Z) (s : st) :
  eof s = true ->
  bind (readinto (S fuel) len) (fun _ => readinto (S fuel') len') s
  = Return (if status_set (recovery s) then recovery s
            else if 0 =? len' then LFP_OK else LFP_EOF, 0, []) s.
Proof.
  intros Heof. unfold bind at 1.
  rewrite (readinto_at_eof fuel len s Heof).
  apply readinto_at_eof. exact Heof.
Qed.

(** X10: when the inner read of the twelve header bytes reports anything
    but OK, parsing throws: protocol failed recovery for OK-incomplete,
    unexpected EOF for EOF, not implemented for every other status.  Only
    the inner stream has moved.  In particular a read that has exhausted
    the last indexed record, not a file-mark, throws in that way instead
    of returning. *)
Theorem X10_header_read_errors (fuel : nat) (len : Z) (s : st)
    (err : lfp_status) (b : list byte) (f' : F) :
  p_readinto (fp s) 12 = (err, b, f') ->
  err <> LFP_OK ->
  read_header_from_disk s = Throw (header_read_error err) (set_fp f' s) /\
  (eof s = false ->
   read_head.exhausted (current s) = true ->
   S (read_head.pos (current s)) = record_index.size (index s) ->
   readinto (S fuel) len s = Throw (header_read_error err) (set_fp f' s)).
Proof.
  intros Hrd Herr.
  assert (Hthrow : read_header_from_disk s
                   = Throw (header_read_error err) (set_fp f' s)).
  { rewrite read_header_from_disk_eq, Hrd.
    destruct err; try reflexivity. contradiction. }
  split; [exact Hthrow|].
  intros Heof Hex Hlast.
  unfold readinto, readinto_private. cbn [readinto_loop].
  unfold bind at 1 2 3 4, gets. rewrite Heof, Hex.
  unfold read_header, bind, gets. rewrite Hlast, Nat.eqb_refl.
  rewrite Hthrow. reflexivity.
Qed.

(** In a valid reader, [next_record] enters the following indexed record
    with that record's length remaining: the unsigned 32-bit sum and
    difference do not wrap. *)
Lemma next_record_length (s : st) (p : nat) (r : Z) :
  valid s ->
  (S p < record_index.size (index s))%nat ->
  read_head.next_record (index s) (read_head.mk p r)
  = read_head.mk (S p) (body_length s (S p)).
Proof.
  intros Hv Hp.
  pose proof (v_bodies Hv Hp) as Hb.
  pose proof (v_u32 Hv) as Hu.
  pose proof (Hu (S p) Hp) as Hu1.
  pose proof (v_base Hv) as Hz. unfold address_map.base in Hz.
  assert (H0 : 0 <= next (record_index.at_ (index s) p))
    by (apply next_nonneg; [assumption | lia]).
  unfold read_head.next_record, body_length, body_start, wrap32, uint32_max,
    header_size in *.
  cbn [read_head.pos]. f_equal.
  rewrite (Z.mod_small (next (record_index.at_ (index s) p) + 12)) by lia.
  rewrite Z.mod_small by lia. reflexivity.
Qed.

(** X11: the two ways of entering a record give it the same length.  In a
    valid reader, [next_record] puts the read head on the following
    indexed record with that record's length remaining; and a header
    parsed from disk after a header whose next leaves room for twelve bytes
    within 32 bits is appended with the read head on it and its record's
    length remaining. *)
Theorem X11_record_length_agrees (s s' : st) (p : nat) (r : Z) (h' : header) :
  (valid s ->
   (S p < record_index.size (index s))%nat ->
   read_head.next_record (index s) (read_head.mk p r)
   = read_head.mk (S p) (body_length s (S p)))
  /\
  (read_header_from_disk s = Return h' s' ->
   (0 < record_index.size (index s))%nat ->
   0 <= next (record_index.back (index s)) <= uint32_max - 12 ->
   current s'
   = read_head.mk (record_index.size (index s))
       (body_length s' (record_index.size (index s)))).
Proof.
  split.
  - intros Hv Hp. apply next_record_length; assumption.
  - intros Hr Hsz Hback.
    pose proof (read_header_from_disk_spec s) as Hs. rewrite Hr in Hs.
    destruct Hs as (f' & s2 & Hs2 & -> & _).
    assert (Hemp : record_index.empty (index s) = false).
    { unfold record_index.size in Hsz. unfold record_index.empty.
      destruct (record_index.vec (index s)); [cbn in Hsz; lia | reflexivity]. }
    assert (Hlen : forall t2 : st,
               index t2 = index s ->
               body_length (appended h' t2) (record_index.size (index s))
               = next h' - (next (record_index.back (index s)) + header_size)).
    { intros t2 Hix. unfold body_length, appended.
      cbn [index set_current set_index]. rewrite Hix, at_push_back_new.
      unfold body_start. cbn [index set_current set_index].
      unfold record_index.back.
      destruct (record_index.size (index s)) as [|k] eqn:Hk; [lia|].
      replace (S k - 1)%nat with k by lia.
      rewrite at_push_back_old by lia. reflexivity. }
    assert (Hcur : forall t2 : st,
               index t2 = index s ->
               current (appended h' t2)
               = read_head.mk (record_index.size (index s))
                   (next h' - (next (record_index.back (index s)) + header_size))).
    { intros t2 Hix. unfold appended. cbn [current set_current].
      rewrite Hix, Hemp. unfold wrap32, uint32_max, header_size in *.
      rewrite Z.mod_small by lia. f_equal. lia. }
    destruct Hs2 as [->|[_ ->]]; rewrite Hlen, Hcur; reflexivity.
Qed.

(** X12: while payload bytes are read, an OK-incomplete of the inner
    stream ends the read at once: the read returns the count accumulated
    so far, the delivered bytes included, with the read head moved by as
    many bytes; the public status is the recovery status if it is set, else
    OK-incomplete unless the request happens to be filled. *)
Theorem X12_partial_read_passes_through (fuel : nat) (len acc : Z)
    (dst : list byte) (s : st) (data : list byte) (f' : F) (n : Z) (s1 : st) :
  eof s = false ->
  read_head.exhausted (current s) = false ->
  p_readinto (fp s) (Z.min len (read_head.bytes_left (current s)))
  = (LFP_OKINCOMPLETE, data, f') ->
  n = Z.of_nat (length data) ->
  n <= read_head.remaining (current s) ->
  s1 = set_current
         (read_head.mk (read_head.pos (current s))
            (read_head.remaining (current s) - n))
         (set_fp f' s) ->
  readinto_loop (S fuel) len acc dst s = Return (acc + n, dst ++ data) s1 /\
  readinto (S fuel) len s
  = Return (if status_set (recovery s) then recovery s
            else if n =? len then LFP_OK else LFP_OKINCOMPLETE,
            n, data) s1.
Proof.
  intros Heof Hex Hrd Hn Hle Hs1.
  assert (Hstep : forall acc dst,
             readinto_loop (S fuel) len acc dst s
             = Return (acc + n, dst ++ data) s1).
  { intros acc0 dst0. cbn [readinto_loop].
    unfold bind, gets, modify, ret, throw, fp_readinto. cbv beta.
    rewrite Heof, Hex, Hrd. cbv beta iota. rewrite <- Hn.
    unfold read_head.move.
    destruct (Z.ltb_spec (read_head.remaining (current s) - n) 0); [lia|].
    cbv beta iota. rewrite <- Hs1. reflexivity. }
  split; [apply Hstep|].
  unfold readinto, readinto_private, bind, gets, ret.
  rewrite Hstep. cbn [app Z.add]. cbv beta iota.
  unfold readinto_status.
  replace (eof s1) with (eof s) by (rewrite Hs1; reflexivity).
  replace (recovery s1) with (recovery s) by (rewrite Hs1; reflexivity).
  rewrite Heof. reflexivity.
Qed.

End Edges.

(** ** The logical position after a read *)

Section TellAdvance.

Context {F : Type} {P : lfp_protocol F}.
Import tapeimage.

Local Abbreviation st := (tapeimage.t (F:=F)).

Lemma extends_at (s sf : st) (i : nat) :
  extends s sf ->
  (i < record_index.size (index s))%nat ->
  record_index.at_ (index sf) i = record_index.at_ (index s) i.
Proof.
  intros ([l Hl] & _ & _) Hi. unfold record_index.at_. rewrite Hl.
  apply app_nth1. exact Hi.
Qed.

Lemma extends_size (s sf : st) :
  extends s sf ->
  (record_index.size (index s) <= record_index.size (index sf))%nat.
Proof.
  intros ([l Hl] & _ & _). unfold record_index.size. rewrite Hl, length_app. lia.
Qed.

Lemma extends_loop (fuel : nat) (len br : Z) (dst : list byte) (s sf : st)
    (r : Z * list byte) :
  readinto_loop fuel len br dst s = Return r sf -> extends s sf.
Proof.
  intros Heq.
  pose proof (@kept_readinto_loop _ _ extends extends_refl extends_trans
                ltac:(intros; same_index) ltac:(intros; same_index)
                extends_parse fuel len br dst s) as Hk.
  rewrite Heq in Hk. exact Hk.
Qed.

(** Entering the next record, from the index or from disk, does not move
    the logical position, as long as the index that results is that of a
    valid reader and within [max_int_records] records. *)
Lemma read_header_keeps_tell (s s1 sf : st) :
  on_record s ->
  read_head.exhausted (current s) = true ->
  read_header (current s) s = Return tt s1 ->
  extends s1 sf -> valid sf -> int_sized sf ->
  tell s1 = tell s.
Proof.
  intros [Hpos Haddr] Hex Hrh Hext Hv Hsmall.
  unfold int_sized, max_int_records in Hsmall.
  apply Z.eqb_eq in Hex.
  pose proof (v_base Hv) as Hz. unfold address_map.base in Hz.
  unfold read_header, bind, gets in Hrh.
  destruct (Nat.eqb_spec (S (read_head.pos (current s)))
              (record_index.size (index s))) as [Hlast|Hmore].
  - destruct (read_header_from_disk s) as [h' s'|e s'|] eqn:Hr;
      try discriminate.
    injection Hrh as <-.
    pose proof (read_header_from_disk_spec s) as Hs. rewrite Hr in Hs.
    destruct Hs as (f' & s2 & Hs2 & -> & _).
    assert (Hix : index s2 = index s /\ addr s2 = addr s)
      by (destruct Hs2 as [->|[_ ->]]; split; reflexivity).
    destruct Hix as [Hix Had].
    assert (Hemp : record_index.empty (index s) = false).
    { unfold record_index.size in Hpos. unfold record_index.empty.
      destruct (record_index.vec (index s)); [cbn in Hpos; lia | reflexivity]. }
    assert (Hsz1 : record_index.size (index (appended h' s2))
                   = S (record_index.size (index s))).
    { unfold appended. cbn [index set_current set_index].
      rewrite Hix. apply size_push_back_S. }
    pose proof (extends_size Hext) as Hsize. rewrite Hsz1 in Hsize.
    assert (Hnew : record_index.at_ (index sf) (record_index.size (index s)) = h').
    { rewrite (extends_at Hext) by lia.
      unfold appended. cbn [index set_current set_index].
      rewrite Hix. apply at_push_back_new. }
    assert (Hold : record_index.at_ (index sf) (read_head.pos (current s))
                   = record_index.at_ (index s) (read_head.pos (current s))).
    { rewrite (extends_at Hext) by lia.
      unfold appended. cbn [index set_current set_index].
      rewrite Hix. apply at_push_back_old. exact Hpos. }
    assert (Hb : 0 <= body_length sf (record_index.size (index s)))
      by (apply (v_bodies Hv); lia).
    assert (Hu : next h' <= uint32_max)
      by (rewrite <- Hnew; apply (v_u32 Hv); lia).
    assert (H0 : 0 <= next (record_index.at_ (index s) (read_head.pos (current s))))
      by (rewrite <- Hold; apply next_nonneg; [assumption | lia]).
    unfold body_length, body_start in Hb. rewrite <- Hlast in Hb.
    rewrite Hlast in Hb at 1. rewrite Hnew, Hold in Hb.
    unfold tell, read_head.tell, appended.
    cbn [current index addr set_current set_index read_head.pos
         read_head.remaining].
    rewrite !logical_small by (unfold max_int_records; rewrite ?Hix; lia).
    rewrite Hix, Had, Hemp, at_push_back_new, Hex.
    unfold record_index.back. rewrite <- Hlast.
    replace (S (read_head.pos (current s)) - 1)%nat
      with (read_head.pos (current s)) by lia.
    unfold wrap32, uint32_max, header_size in *.
    rewrite Z.mod_small by lia. lia.
  - unfold fp_seek, modify in Hrh.
    destruct (p_seek (fp s) _) as [f'|]; [|discriminate].
    injection Hrh as <-.
    assert (Hext' : extends s sf).
    { apply extends_trans with (2 := Hext). same_index. }
    pose proof (extends_size Hext') as Hsize.
    assert (Hp1 : (S (read_head.pos (current s)) < record_index.size (index sf))%nat)
      by lia.
    assert (Hb : 0 <= body_length sf (S (read_head.pos (current s))))
      by (apply (v_bodies Hv); lia).
    assert (Hu : next (record_index.at_ (index sf) (S (read_head.pos (current s))))
                 <= uint32_max)
      by (apply (v_u32 Hv); lia).
    assert (H0 : 0 <= next (record_index.at_ (index sf) (read_head.pos (current s))))
      by (apply next_nonneg; [assumption | lia]).
    unfold body_length, body_start in Hb.
    assert (Hat0 : record_index.at_ (index sf) (read_head.pos (current s))
                   = record_index.at_ (index s) (read_head.pos (current s)))
      by (apply (extends_at Hext'); lia).
    assert (Hat1 : record_index.at_ (index sf) (S (read_head.pos (current s)))
                   = record_index.at_ (index s) (S (read_head.pos (current s))))
      by (apply (extends_at Hext'); lia).
    rewrite Hat0, Hat1 in Hb. rewrite Hat1 in Hu. rewrite Hat0 in H0.
    unfold tell, read_head.tell, read_head.next_record.
    cbn [current index addr set_current set_fp read_head.pos
         read_head.remaining].
    rewrite !logical_small by (unfold max_int_records; lia).
    rewrite Hex. unfold wrap32, uint32_max, header_size in *.
    rewrite (Z.mod_small
               (next (record_index.at_ (index s) (read_head.pos (current s))) + 12))
      by lia.
    rewrite Z.mod_small by lia. lia.
Qed.

Lemma readinto_loop_tell (fuel : nat) :
  forall (len br : Z) (dst : list byte) (s sf : st) (br' : Z) (dst' : list byte),
    on_record s ->
    readinto_loop fuel len br dst s = Return (br', dst') sf ->
    valid sf -> int_sized sf ->
    tell sf = tell s + (br' - br).
Proof.
  induction fuel as [|fuel IH]; intros len br dst s sf br' dst' Ho Hl Hv Hsm;
    [discriminate|].
  cbn [readinto_loop] in Hl. unfold bind at 1 2, gets in Hl.
  destruct (eof s).
  - injection Hl as <- <- <-. lia.
  - destruct (read_head.exhausted (current s)) eqn:Hex.
    + unfold bind in Hl.
      destruct (read_header (current s) s) as [[] s1|e s1|] eqn:Hrh;
        try discriminate.
      assert (Ho1 : on_record s1).
      { pose proof (on_record_read_header Ho) as H1.
        rewrite Hrh in H1. exact H1. }
      pose proof (extends_loop _ _ _ _ _ Hl) as Hext.
      rewrite (IH _ _ _ _ _ _ _ Ho1 Hl Hv Hsm).
      rewrite (read_header_keeps_tell Ho Hex Hrh Hext Hv Hsm). reflexivity.
    + unfold bind, fp_readinto, modify in Hl.
      destruct (p_readinto (fp s) _) as [[err data] f'].
      unfold read_head.move in Hl.
      destruct (_ <? 0); [discriminate|].
      set (s1 := set_current
                   (read_head.mk (read_head.pos (current s))
                      (read_head.remaining (current s)
                       - Z.of_nat (length data)))
                   (set_fp f' s)) in *.
      assert (Ht1 : tell s1 = tell s + Z.of_nat (length data)).
      { unfold s1, tell, read_head.tell, address_map.logical. cbn. lia. }
      assert (Ho1 : on_record s1) by exact Ho.
      assert (Hret : forall x y z,
                 @Return st (Z * list byte) (br + Z.of_nat (length data), y) s1
                 = Return (x, z) sf ->
                 tell sf = tell s + (x - br)).
      { intros x y z Heq. injection Heq as <- _ <-. rewrite Ht1. lia. }
      assert (Hrec : readinto_loop fuel (len - Z.of_nat (length data))
                       (br + Z.of_nat (length data)) (dst ++ data) s1
                     = Return (br', dst') sf ->
                     tell sf = tell s + (br' - br)).
      { intros Hl'. rewrite (IH _ _ _ _ _ _ _ Ho1 Hl' Hv Hsm), Ht1. lia. }
      destruct err;
        try (destruct (Z.of_nat (length data) =? len);
             [exact (Hret _ _ _ Hl) | exact (Hrec Hl)]).
      * exact (Hret _ _ _ Hl).
      * destruct (negb _); [discriminate | exact (Hret _ _ _ Hl)].
Qed.

(** X13: a read that returns [n] bytes moves the logical position
    reported by [tell] forward by exactly [n], across any number of record
    boundaries, for a reader with its read head on an indexed record that
    the read leaves valid and with an index within [max_int_records]
    records. *)
Theorem X13_tell_advances_by_count (fuel : nat) (len : Z) (s s' : st)
    (status : lfp_status) (n : Z) (data : list byte) :
  on_record s ->
  readinto fuel len s = Return (status, n, data) s' ->
  valid s' ->
  int_sized s' ->
  tell s' = tell s + n.
Proof.
  intros Ho Hr Hv Hsm. unfold readinto, readinto_private, bind, gets, ret in Hr.
  destruct (readinto_loop fuel len 0 [] s) as [[n0 d0] s1|e s1|] eqn:Hl;
    try discriminate.
  injection Hr as _ <- _ <-.
  rewrite (readinto_loop_tell _ _ _ _ Ho Hl Hv Hsm). lia.
Qed.

End TellAdvance.

(** ** Reading back a written image *)

Lemma byte_of_value (z : Z) : Z.of_N (Byte.to_N (byte_of z)) = z mod 2 ^ 8.
Proof.
  unfold byte_of. change (2 ^ 8) with 256.
  pose proof (Z.mod_pos_bound z 256 ltac:(lia)) as Hb.
  destruct (Byte.of_N (Z.to_N (z mod 256))) as [b|] eqn:Hof.
  - rewrite (Byte.to_of_N _ Hof). lia.
  - apply Byte.of_N_None_iff in Hof. lia.
Qed.

Lemma le32_le32_bytes (v : Z) (tl : list byte) :
  0 <= v <= uint32_max ->
  le32 (le32_bytes v ++ tl) 0 = v.
Proof.
  intros Hv. unfold le32, byte_at, le32_bytes. cbn [app nth Nat.add].
  rewrite !byte_of_value.
  change 256 with (2 ^ 8). change 65536 with (2 ^ 16).
  change 16777216 with (2 ^ 24).
  assert (Hhigh : forall i, 32 <= i -> Z.testbit v i = false).
  { intros i Hi. rewrite <- (Z.mod_small v (2 ^ 32))
      by (unfold uint32_max in Hv; change (2 ^ 32) with 4294967296; lia).
    apply Z.mod_pow2_bits_high. lia. }
  apply Z.bits_inj'. intros i Hi.
  rewrite !Z.lor_spec, !Z.shiftl_spec by lia.
  rewrite !Z.testbit_mod_pow2 by lia.
  destruct (Z.ltb_spec i 8).
  - rewrite (Z.testbit_neg_r _ (i - 8)), (Z.testbit_neg_r _ (i - 16)),
      (Z.testbit_neg_r _ (i - 24)) by lia.
    rewrite !andb_false_r, !orb_false_r. reflexivity.
  - rewrite (Z.div_pow2_bits v 8 (i - 8)) by lia.
    replace (i - 8 + 8) with i by lia.
    destruct (Z.ltb_spec (i - 8) 8).
    + rewrite (Z.testbit_neg_r _ (i - 16)), (Z.testbit_neg_r _ (i - 24)) by lia.
      rewrite !andb_false_r, !orb_false_r. reflexivity.
    + rewrite (Z.div_pow2_bits v 16 (i - 16)) by lia.
      replace (i - 16 + 16) with i by lia.
      destruct (Z.ltb_spec (i - 16) 8).
      * rewrite (Z.testbit_neg_r _ (i - 24)) by lia.
        rewrite !andb_false_r, !orb_false_r. reflexivity.
      * rewrite (Z.div_pow2_bits v 24 (i - 24)) by lia.
        replace (i - 24 + 24) with i by lia.
        destruct (Z.ltb_spec (i - 24) 8).
        -- reflexivity.
        -- cbn [andb orb]. symmetry. apply Hhigh. lia.
Qed.

(** Decoding the twelve bytes of a header whose fields fit 32 bits gives
    the header back. *)
Lemma decode_header_bytes (h : header) :
  0 <= type h <= uint32_max ->
  0 <= prev h <= uint32_max ->
  0 <= next h <= uint32_max ->
  decode_header (header_bytes h) = h.
Proof.
  intros Ht Hp Hn. destruct h as [t p n]. cbn [type prev next] in *.
  unfold decode_header, header_bytes. cbn [type prev next].
  pose proof (@le32_le32_bytes t (le32_bytes p ++ le32_bytes n) Ht) as H0.
  pose proof (@le32_le32_bytes p (le32_bytes n) Hp) as H1.
  pose proof (@le32_le32_bytes n [] Hn) as H2.
  unfold le32, byte_at, le32_bytes in *. cbn [app nth Nat.add] in *.
  rewrite H0, H1, H2. reflexivity.
Qed.

Lemma memfile_read (pre x : list byte) (k : Z) :
  p_readinto (memfile.mk (pre ++ x) (lenZ pre)) k
  = (if lenZ (firstn (Z.to_nat k) x) =? k then LFP_OK else LFP_EOF,
     firstn (Z.to_nat k) x,
     memfile.mk (pre ++ x) (lenZ pre + lenZ (firstn (Z.to_nat k) x))).
Proof.
  cbn [p_readinto memfile.protocol]. unfold memfile.readinto, lenZ.
  cbn [memfile.mem memfile.pos]. rewrite Nat2Z.id.
  rewrite skipn_app, skipn_all, Nat.sub_diag. reflexivity.
Qed.

Lemma header_bytes_length (h : header) : length (header_bytes h) = 12%nat.
Proof. reflexivity. Qed.

Lemma parsed_clean (F : Type) (h : header) (s : tapeimage.t (F:=F)) :
  tapeimage.recovery s = LFP_OK ->
  type h = 0 \/ type h = 1 ->
  prev h < next h ->
  ((2 <= record_index.size (tapeimage.index s))%nat ->
   prev h = next (record_index.at_ (tapeimage.index s)
                    (record_index.size (tapeimage.index s) - 2))) ->
  parsed h s = Return h (appended h s).
Proof.
  intros Hc Hty Hlt Hlink. unfold parsed, tapeimage.record, tapeimage.file.
  assert (Hcons : (type h =? 0) || (type h =? 1) = true)
    by (destruct Hty as [Ht | Ht]; rewrite Ht; reflexivity).
  rewrite Hcons, Hc. cbn [negb andb status_set].
  rewrite (proj2 (Z.leb_gt _ _) Hlt).
  destruct (Nat.leb_spec 2 (record_index.size (tapeimage.index s))) as [H2|H2].
  - rewrite <- (Hlink H2), Z.eqb_refl. reflexivity.
  - reflexivity.
Qed.

Ltac reader_simpl :=
  cbn [tapeimage.index tapeimage.addr tapeimage.fp tapeimage.current
       tapeimage.recovery tapeimage.set_current tapeimage.set_index
       tapeimage.set_fp tapeimage.set_recovery
       record_index.vec record_index.addr
       read_head.pos read_head.remaining memfile.mem memfile.pos].

(** Parsing the header [h2] that the stream holds right after the payload
    of the last indexed record [h]. *)
Lemma read_header_written (pre tail : list byte) (hs : list header)
    (h h2 : header) :
  next h = lenZ pre ->
  type h2 = 0 \/ type h2 = 1 ->
  0 <= prev h2 < next h2 ->
  next h2 <= uint32_max ->
  lenZ pre + 12 <= uint32_max ->
  ((1 <= length hs)%nat -> next (nth (length hs - 1) hs header0) = prev h2) ->
  tapeimage.read_header (read_head.mk (length hs) 0)
    (reader_at (pre ++ header_bytes h2 ++ tail) (lenZ pre) (hs ++ [h])
       (read_head.mk (length hs) 0) LFP_OK)
  = Return tt
      (reader_at (pre ++ header_bytes h2 ++ tail) (lenZ pre + 12)
         ((hs ++ [h]) ++ [h2])
         (read_head.mk (S (length hs)) (next h2 - (lenZ pre + 12))) LFP_OK).
Proof.
  intros Hnext Hty Hpn Hu Hoff Hlink.
  assert (Hdec : decode_header (header_bytes h2) = h2).
  { apply decode_header_bytes; unfold uint32_max in *;
      destruct Hty as [Ht | Ht]; lia. }
  assert (Hsize : record_index.size
                    (record_index.mk (hs ++ [h]) (address_map.mk 0))
                  = S (length hs)).
  { unfold record_index.size. cbn [record_index.vec].
    rewrite length_app. cbn [length]. lia. }
  unfold tapeimage.read_header, bind, gets, reader_at. reader_simpl.
  rewrite Hsize, Nat.eqb_refl.
  rewrite read_header_from_disk_eq. reader_simpl.
  rewrite memfile_read.
  change (firstn (Z.to_nat 12) (header_bytes h2 ++ tail))
    with (header_bytes h2).
  change (lenZ (header_bytes h2)) with 12. cbn [Z.eqb Pos.eqb].
  rewrite Hdec.
  rewrite parsed_clean; reader_simpl;
    [ | reflexivity | exact Hty | lia | ].
  - unfold appended, ret. reader_simpl. rewrite Hsize.
    assert (Hemp : record_index.empty
                     (record_index.mk (hs ++ [h]) (address_map.mk 0)) = false).
    { unfold record_index.empty. cbn [record_index.vec].
      destruct hs; reflexivity. }
    assert (Hback : record_index.back
                      (record_index.mk (hs ++ [h]) (address_map.mk 0)) = h).
    { unfold record_index.back, record_index.at_. rewrite Hsize.
      cbn [record_index.vec]. replace (S (length hs) - 1)%nat with (length hs) by lia.
      apply nth_middle. }
    rewrite Hemp, Hback, Hnext.
    unfold wrap32, header_size, uint32_max, lenZ in *.
    rewrite Z.mod_small by lia.
    unfold record_index.push_back. cbn [record_index.vec record_index.addr].
    replace (12 + Z.of_nat (length pre)) with (Z.of_nat (length pre) + 12) by lia.
    reflexivity.
  - rewrite Hsize. intros H2. unfold record_index.at_. cbn [record_index.vec].
    replace (S (length hs) - 2)%nat with (length hs - 1)%nat by lia.
    rewrite app_nth1 by lia. symmetry. apply Hlink. lia.
Qed.

Lemma eof_reader_at (bytes : list byte) (at_byte : Z) (hs : list header)
    (h : header) (rem : Z) (rec : lfp_status) :
  tapeimage.eof
    (reader_at bytes at_byte (hs ++ [h]) (read_head.mk (length hs) rem) rec)
  = (type h =? 1).
Proof.
  unfold tapeimage.eof, tapeimage.current_header, reader_at, record_index.at_.
  reader_simpl. rewrite nth_middle. reflexivity.
Qed.

Lemma firstn_min_app (r tail : list byte) (len : Z) :
  0 <= len ->
  firstn (Z.to_nat (Z.min len (lenZ r))) (r ++ tail)
  = firstn (Z.to_nat len) r /\
  lenZ (firstn (Z.to_nat len) r) = Z.min len (lenZ r).
Proof.
  intros Hlen. unfold lenZ. split.
  - rewrite firstn_app.
    replace (Z.to_nat (Z.min len (Z.of_nat (length r))) - length r)%nat
      with 0%nat by lia.
    cbn [firstn]. rewrite app_nil_r.
    destruct (Z.le_ge_cases len (Z.of_nat (length r))) as [Hle|Hge].
    + rewrite Z.min_l by lia. reflexivity.
    + rewrite Z.min_r by lia. rewrite Nat2Z.id.
      rewrite firstn_all. symmetry. apply firstn_all2. lia.
  - rewrite length_firstn. lia.
Qed.

(** Reading the payload of the current record [r] of a written image:
    the read ends within the record, or goes on with the record
    exhausted. *)
Lemma read_payload_written (pre r tail : list byte) (hs : list header)
    (h : header) (len br : Z) (dst : list byte) (fuel : nat) :
  type h = 0 ->
  r <> [] ->
  0 <= len ->
  tapeimage.readinto_loop (S fuel) len br dst
    (reader_at (pre ++ r ++ tail) (lenZ pre) (hs ++ [h])
       (read_head.mk (length hs) (lenZ r)) LFP_OK)
  = if len <=? lenZ r
    then Return (br + len, dst ++ firstn (Z.to_nat len) r)
           (reader_at (pre ++ r ++ tail) (lenZ pre + len) (hs ++ [h])
              (read_head.mk (length hs) (lenZ r - len)) LFP_OK)
    else tapeimage.readinto_loop fuel (len - lenZ r) (br + lenZ r) (dst ++ r)
           (reader_at ((pre ++ r) ++ tail) (lenZ (pre ++ r)) (hs ++ [h])
              (read_head.mk (length hs) 0) LFP_OK).
Proof.
  intros Hty Hr Hlen.
  assert (Hpos : 0 < lenZ r).
  { unfold lenZ. destruct r; [contradiction | cbn; lia]. }
  destruct (firstn_min_app r tail Hlen) as [Hdata Hn].
  pose proof (eof_reader_at (pre ++ r ++ tail) (lenZ pre) hs h (lenZ r) LFP_OK)
    as Heof.
  rewrite Hty in Heof. cbn [Z.eqb] in Heof.
  cbn [tapeimage.readinto_loop].
  unfold bind at 1, gets. rewrite Heof.
  unfold reader_at, bind, gets, modify, ret, throw, tapeimage.fp_readinto.
  cbv beta. reader_simpl.
  unfold read_head.exhausted, read_head.bytes_left. reader_simpl.
  destruct (Z.eqb_spec (lenZ r) 0) as [Hz|_]; [lia|].
  cbv beta. reader_simpl. rewrite memfile_read, Hdata.
  fold (lenZ (firstn (Z.to_nat len) r)). rewrite Hn.
  unfold read_head.move. reader_simpl.
  destruct (Z.ltb_spec (lenZ r - Z.min len (lenZ r)) 0) as [Hneg|_]; [lia|].
  rewrite Z.eqb_refl. cbv beta iota. reader_simpl.
  destruct (Z.leb_spec len (lenZ r)) as [Hle|Hgt].
  - rewrite Z.min_l by lia. rewrite Z.eqb_refl. reflexivity.
  - rewrite Z.min_r by lia.
    destruct (Z.eqb_spec (lenZ r) len) as [Heq|_]; [lia|].
    rewrite firstn_all2 by (unfold lenZ in *; lia).
    rewrite Z.sub_diag, <- app_assoc.
    replace (lenZ (pre ++ r)) with (lenZ pre + lenZ r)
      by (unfold lenZ; rewrite length_app; lia).
    reflexivity.
Qed.

Lemma loop_enters_record (F : Type) (P : lfp_protocol F) (fuel : nat)
    (len br : Z) (dst : list byte) (s : tapeimage.t (F:=F)) :
  tapeimage.eof s = false ->
  read_head.exhausted (tapeimage.current s) = true ->
  tapeimage.readinto_loop (S fuel) len br dst s
  = match tapeimage.read_header (tapeimage.current s) s with
    | Return _ s' => tapeimage.readinto_loop fuel len br dst s'
    | Throw e s' => Throw e s'
    | OutOfFuel => OutOfFuel
    end.
Proof.
  intros Heof Hex. cbn [tapeimage.readinto_loop].
  unfold bind at 1 2, gets. rewrite Heof, Hex. reflexivity.
Qed.

Lemma loop_at_eof (F : Type) (P : lfp_protocol F) (fuel : nat)
    (len br : Z) (dst : list byte) (s : tapeimage.t (F:=F)) :
  tapeimage.eof s = true ->
  tapeimage.readinto_loop (S fuel) len br dst s = Return (br, dst) s.
Proof.
  intros Heof. cbn [tapeimage.readinto_loop].
  unfold bind, gets. rewrite Heof. reflexivity.
Qed.

Lemma image_size_cons (r : list byte) (rest : list (list byte)) :
  image_size (r :: rest) = lenZ r + 12 + image_size rest.
Proof.
  unfold image_size, payload, lenZ. cbn [concat length].
  rewrite length_app. lia.
Qed.

Lemma image_size_pos (recs : list (list byte)) : 12 <= image_size recs.
Proof. unfold image_size, lenZ. lia. Qed.

(** Reading on from the end of a record of a written image, the rest of
    which holds the records [recs] and the file-mark. *)
Lemma read_rest_written (recs : list (list byte)) :
  forall (pre : list byte) (hs : list header) (h : header) (prevoff : Z)
         (len br : Z) (dst : list byte) (fuel : nat),
    type h = 0 ->
    next h = lenZ pre ->
    0 <= prevoff < lenZ pre ->
    ((1 <= length hs)%nat -> next (nth (length hs - 1) hs header0) = prevoff) ->
    lenZ pre + image_size recs <= uint32_max ->
    0 <= len ->
    (2 * length recs + 2 <= fuel)%nat ->
    exists s',
      tapeimage.readinto_loop fuel len br dst
        (reader_at (pre ++ tif_image (lenZ pre) prevoff recs) (lenZ pre)
           (hs ++ [h]) (read_head.mk (length hs) 0) LFP_OK)
      = Return (br + Z.min len (lenZ (payload recs)),
                dst ++ firstn (Z.to_nat len) (payload recs)) s' /\
      tapeimage.recovery s' = LFP_OK /\
      (lenZ (payload recs) < len -> tapeimage.eof s' = true).
Proof.
  induction recs as [|r rest IH];
    intros pre hs h prevoff len br dst fuel Hty Hnext Hprev Hlink Hfit Hlen Hfuel.
  - destruct fuel as [|[|fuel]]; [cbn in Hfuel; lia | cbn in Hfuel; lia |].
    cbn [tif_image].
    rewrite <- (app_nil_r (header_bytes (mkheader 1 prevoff (lenZ pre + 12)))).
    rewrite loop_enters_record;
      [ | rewrite eof_reader_at, Hty; reflexivity | reflexivity ].
    change (tapeimage.current (reader_at _ _ _ _ _))
      with (read_head.mk (length hs) 0).
    unfold image_size, payload, lenZ in Hfit. cbn [concat length] in Hfit.
    rewrite read_header_written;
      cbn [type prev next]; try lia; try (right; reflexivity); try assumption.
    replace (S (length hs)) with (length (hs ++ [h]))
      by (rewrite length_app; cbn [length]; lia).
    rewrite loop_at_eof by (rewrite eof_reader_at; reflexivity).
    eexists. split; [|split].
    + change (lenZ (payload [])) with 0. change (payload []) with (@nil byte).
      rewrite Z.min_r by lia. rewrite firstn_nil, !app_nil_r, Z.add_0_r.
      reflexivity.
    + reflexivity.
    + intros _. rewrite eof_reader_at. reflexivity.
  - destruct fuel as [|fuel]; [cbn in Hfuel; lia|].
    cbn [tif_image]. rewrite image_size_cons in Hfit.
    pose proof (image_size_pos rest) as Hrest.
    assert (Hr0 : 0 <= lenZ r) by (unfold lenZ; lia).
    rewrite loop_enters_record;
      [ | rewrite eof_reader_at, Hty; reflexivity | reflexivity ].
    change (tapeimage.current (reader_at _ _ _ _ _))
      with (read_head.mk (length hs) 0).
    rewrite read_header_written;
      cbn [type prev next]; try lia; try (left; reflexivity); try assumption.
    replace (lenZ pre + 12 + lenZ r - (lenZ pre + 12)) with (lenZ r) by lia.
    replace (S (length hs)) with (length (hs ++ [h]))
      by (rewrite length_app; cbn [length]; lia).
    set (h2 := mkheader 0 prevoff (lenZ pre + 12 + lenZ r)).
    set (pre1 := pre ++ header_bytes h2).
    assert (Hpre1 : lenZ pre1 = lenZ pre + 12).
    { unfold pre1, lenZ. rewrite length_app, header_bytes_length. lia. }
    replace (pre ++ header_bytes h2 ++ r ++ tif_image (lenZ pre + 12 + lenZ r) (lenZ pre) rest)
      with (pre1 ++ r ++ tif_image (lenZ pre + 12 + lenZ r) (lenZ pre) rest)
      by (unfold pre1; rewrite <- app_assoc; reflexivity).
    rewrite <- Hpre1.
    assert (Hlink1 : (1 <= length (hs ++ [h]))%nat ->
                     next (nth (length (hs ++ [h]) - 1) (hs ++ [h]) header0)
                     = lenZ pre).
    { intros _. rewrite length_app. cbn [length].
      replace (length hs + 1 - 1)%nat with (length hs) by lia.
      rewrite nth_middle. exact Hnext. }
    destruct r as [|b r'].
    + cbn [app]. change (lenZ []) with 0 in *.
      rewrite Z.add_0_r.
      destruct (IH pre1 (hs ++ [h]) h2 (lenZ pre) len br dst fuel eq_refl
                  ltac:(unfold h2; cbn [next]; lia) ltac:(lia) Hlink1
                  ltac:(lia) Hlen ltac:(cbn [length] in Hfuel; lia))
        as (s' & Hrun & Hrec & Heof).
      exists s'. split; [|split; assumption].
      rewrite Hrun. reflexivity.
    + destruct fuel as [|fuel]; [cbn in Hfuel; lia|].
      rewrite read_payload_written;
        [ | reflexivity | discriminate | exact Hlen ].
      set (r := b :: r') in *.
      assert (Hpay : payload (r :: rest) = r ++ payload rest) by reflexivity.
      assert (Hpaylen : lenZ (payload (r :: rest)) = lenZ r + lenZ (payload rest)).
      { rewrite Hpay. unfold lenZ. rewrite length_app. lia. }
      destruct (Z.leb_spec len (lenZ r)) as [Hle|Hgt].
      * eexists. split; [|split].
        -- rewrite Hpaylen, Hpay, firstn_app.
           replace (Z.to_nat len - length r)%nat with 0%nat
             by (unfold lenZ in *; lia).
           cbn [firstn]. rewrite app_nil_r.
           rewrite Z.min_l by (unfold lenZ in *; lia). reflexivity.
        -- reflexivity.
        -- intros Hlt. unfold lenZ in *. lia.
      * assert (Hpre2 : lenZ (pre1 ++ r) = lenZ pre1 + lenZ r).
        { unfold lenZ. rewrite length_app. lia. }
        rewrite <- Hpre2.
        destruct (IH (pre1 ++ r) (hs ++ [h]) h2 (lenZ pre)
                    (len - lenZ r) (br + lenZ r) (dst ++ r) fuel eq_refl
                    ltac:(unfold h2; cbn [next]; lia) ltac:(lia) Hlink1
                    ltac:(lia) ltac:(lia)
                    ltac:(cbn [length] in Hfuel; lia))
          as (s' & Hrun & Hrec & Heof).
        exists s'. split; [|split].
        -- rewrite Hrun, Hpaylen, Hpay. f_equal. f_equal.
           ++ lia.
           ++ rewrite firstn_app, <- app_assoc. f_equal.
              rewrite (@firstn_all2 _ (Z.to_nat len) r)
                by (unfold lenZ in *; lia).
              f_equal. f_equal. unfold lenZ in *. lia.
        -- exact Hrec.
        -- intros Hlt. apply Heof. lia.
Qed.

(** Reading on from the start of the payload of the record [r] of a
    written image. *)
Lemma read_record_written (pre r : list byte) (rest : list (list byte))
    (hs : list header) (h : header) (len br : Z) (dst : list byte)
    (fuel : nat) :
  type h = 0 ->
  next h = lenZ pre + lenZ r ->
  12 <= lenZ pre ->
  ((1 <= length hs)%nat ->
   next (nth (length hs - 1) hs header0) = lenZ pre - 12) ->
  lenZ pre + lenZ r + image_size rest <= uint32_max ->
  0 <= len ->
  (2 * length rest + 3 <= fuel)%nat ->
  exists s',
    tapeimage.readinto_loop fuel len br dst
      (reader_at
         (pre ++ r ++ tif_image (lenZ pre + lenZ r) (lenZ pre - 12) rest)
         (lenZ pre) (hs ++ [h]) (read_head.mk (length hs) (lenZ r)) LFP_OK)
    = Return (br + Z.min len (lenZ (r ++ payload rest)),
              dst ++ firstn (Z.to_nat len) (r ++ payload rest)) s' /\
    tapeimage.recovery s' = LFP_OK /\
    (lenZ (r ++ payload rest) < len -> tapeimage.eof s' = true).
Proof.
  intros Hty Hnext Hpre Hlink Hfit Hlen Hfuel.
  pose proof (image_size_pos rest) as Hrest.
  assert (Hr0 : 0 <= lenZ r) by (unfold lenZ; lia).
  destruct r as [|b r'].
  - cbn [app]. change (lenZ []) with 0 in *. rewrite Z.add_0_r in *.
    apply read_rest_written; try assumption; lia.
  - destruct fuel as [|fuel]; [lia|].
    rewrite read_payload_written;
      [ | exact Hty | discriminate | exact Hlen ].
    set (r := b :: r') in *.
    assert (Hpaylen : lenZ (r ++ payload rest) = lenZ r + lenZ (payload rest)).
    { unfold lenZ. rewrite length_app. lia. }
    destruct (Z.leb_spec len (lenZ r)) as [Hle|Hgt].
    + eexists. split; [|split].
      * rewrite Hpaylen, firstn_app.
        replace (Z.to_nat len - length r)%nat with 0%nat
          by (unfold lenZ in *; lia).
        cbn [firstn]. rewrite app_nil_r.
        rewrite Z.min_l by (unfold lenZ in *; lia). reflexivity.
      * reflexivity.
      * intros Hlt. unfold lenZ in *. lia.
    + assert (Hpre2 : lenZ (pre ++ r) = lenZ pre + lenZ r).
      { unfold lenZ. rewrite length_app. lia. }
      rewrite <- Hpre2.
      destruct (@read_rest_written rest (pre ++ r) hs h (lenZ pre - 12)
                  (len - lenZ r) (br + lenZ r) (dst ++ r) fuel Hty
                  ltac:(lia) ltac:(lia) Hlink ltac:(lia) ltac:(lia)
                  ltac:(lia))
        as (s' & Hrun & Hrec & Heof).
      exists s'. split; [|split].
      * rewrite Hrun, Hpaylen. f_equal. f_equal.
        -- lia.
        -- rewrite firstn_app, <- app_assoc. f_equal.
           rewrite (@firstn_all2 _ (Z.to_nat len) r)
             by (unfold lenZ in *; lia).
           f_equal. f_equal. unfold lenZ in *. lia.
      * exact Hrec.
      * intros Hlt. apply Heof. lia.
Qed.

(** Opening a written image reads its first header into a clean reader. *)
Lemma open_written (h : header) (tail : list byte) :
  type h = 0 \/ type h = 1 ->
  prev h = 0 ->
  12 <= next h <= uint32_max ->
  lfp_tapeimage_open (Some (memfile.open (header_bytes h ++ tail)))
  = (Some (reader_at (header_bytes h ++ tail) 12 ([] ++ [h])
             (read_head.mk 0 (next h - 12)) LFP_OK), None).
Proof.
  intros Hty Hprev Hnext.
  assert (Hdec : decode_header (header_bytes h) = h).
  { apply decode_header_bytes; unfold uint32_max in *;
      destruct Hty as [Ht | Ht]; lia. }
  unfold lfp_tapeimage_open, tapeimage.ctor.
  rewrite read_header_from_disk_eq.
  unfold tapeimage.fresh, memfile.open.
  cbn [p_tell memfile.protocol memfile.tell memfile.pos]. reader_simpl.
  change (memfile.mk (header_bytes h ++ tail) 0)
    with (memfile.mk ([] ++ header_bytes h ++ tail) (lenZ [])).
  rewrite memfile_read.
  change (firstn (Z.to_nat 12) (header_bytes h ++ tail))
    with (header_bytes h).
  change (lenZ (header_bytes h)) with 12. cbn [Z.eqb Pos.eqb].
  rewrite Hdec.
  rewrite parsed_clean;
    [ | reflexivity | exact Hty | lia | cbn; lia ].
  reflexivity.
Qed.

(** X14: a tape image written out from the records [recs], closed by a
    file-mark and small enough for 32-bit offsets, reads back through the
    reader: it opens, and a read of [len] bytes returns the first [len]
    bytes of the records' payloads put end to end, with status OK when the
    payloads hold that many bytes, and all of them with status EOF
    otherwise, however the payload is cut into records, empty ones
    included.  A fuel of twice the number of records plus one is
    enough. *)
Theorem X14_reads_back_written_image (recs : list (list byte)) (len : Z)
    (fuel : nat) :
  image_size recs <= uint32_max ->
  0 <= len ->
  (2 * length recs + 1 <= fuel)%nat ->
  exists s0 s',
    lfp_tapeimage_open (Some (memfile.open (tif_image 0 0 recs)))
    = (Some s0, None) /\
    tapeimage.readinto fuel len s0
    = Return (if len <=? lenZ (payload recs) then LFP_OK else LFP_EOF,
              Z.min len (lenZ (payload recs)),
              firstn (Z.to_nat len) (payload recs)) s'.
Proof.
  intros Hfit Hlen Hfuel.
  assert (Hfinish : forall (s0 s' : tapeimage.t (F:=memfile.t)),
             tapeimage.readinto_loop fuel len 0 [] s0
             = Return (0 + Z.min len (lenZ (payload recs)),
                       [] ++ firstn (Z.to_nat len) (payload recs)) s' ->
             tapeimage.recovery s' = LFP_OK ->
             (lenZ (payload recs) < len -> tapeimage.eof s' = true) ->
             tapeimage.readinto fuel len s0
             = Return (if len <=? lenZ (payload recs) then LFP_OK else LFP_EOF,
                       Z.min len (lenZ (payload recs)),
                       firstn (Z.to_nat len) (payload recs)) s').
  { intros s0 s' Hrun Hrec Heof.
    unfold tapeimage.readinto, tapeimage.readinto_private, bind, gets, ret.
    rewrite Hrun. cbn [app Z.add]. cbv beta iota.
    unfold tapeimage.readinto_status. rewrite Hrec. cbn [status_set].
    destruct (Z.leb_spec len (lenZ (payload recs))) as [Hle|Hgt].
    - rewrite Z.min_l by lia. rewrite Z.eqb_refl. reflexivity.
    - rewrite Z.min_r by lia.
      destruct (Z.eqb_spec (lenZ (payload recs)) len); [lia|].
      rewrite Heof by lia. reflexivity. }
  destruct recs as [|r rest].
  - cbn [tif_image].
    rewrite <- (app_nil_r (header_bytes (mkheader 1 0 (0 + 12)))).
    eexists. eexists. split.
    + apply open_written; cbn [type prev next];
        [right; reflexivity | reflexivity | unfold uint32_max; lia].
    + destruct fuel as [|fuel]; [lia|].
      apply Hfinish.
      * rewrite loop_at_eof by reflexivity.
        change (lenZ (payload [])) with 0. rewrite Z.min_r by lia.
        change (payload []) with (@nil byte). rewrite firstn_nil. reflexivity.
      * reflexivity.
      * intros _. reflexivity.
  - cbn [tif_image]. rewrite image_size_cons in Hfit.
    pose proof (image_size_pos rest) as Hrest.
    assert (Hr0 : 0 <= lenZ r) by (unfold lenZ; lia).
    set (h0 := mkheader 0 0 (0 + 12 + lenZ r)).
    assert (Hh0 : lenZ (header_bytes h0) = 12) by reflexivity.
    destruct (@read_record_written (header_bytes h0) r rest [] h0 len 0 [] fuel
                eq_refl
                ltac:(rewrite Hh0; unfold h0; cbn [next]; lia)
                ltac:(lia)
                ltac:(cbn [length]; lia)
                ltac:(lia) Hlen
                ltac:(cbn [length] in Hfuel; lia))
      as (s' & Hrun & Hrec & Heof).
    rewrite Hh0 in Hrun. replace (12 - 12) with 0 in Hrun by lia.
    eexists. exists s'. split.
    + apply open_written; unfold h0; cbn [type prev next];
          [left; reflexivity | reflexivity | unfold uint32_max in *; lia].
    + apply Hfinish; try assumption.
      replace (next h0 - 12) with (lenZ r) by (unfold h0; cbn [next]; lia).
      exact Hrun.
Qed.

(** ** Header fields *)

Lemma byte_at_range (b : list byte) (i : nat) : 0 <= byte_at b i <= 255.
Proof.
  unfold byte_at. pose proof (Byte.to_N_bounded (nth i b x00)). lia.
Qed.

Lemma le32_range (b : list byte) (off : nat) : 0 <= le32 b off <= uint32_max.
Proof.
  unfold le32.
  pose proof (byte_at_range b off) as H0.
  pose proof (byte_at_range b (off + 1)) as H1.
  pose proof (byte_at_range b (off + 2)) as H2.
  pose proof (byte_at_range b (off + 3)) as H3.
  set (b0 := byte_at b off) in *. set (b1 := byte_at b (off + 1)) in *.
  set (b2 := byte_at b (off + 2)) in *. set (b3 := byte_at b (off + 3)) in *.
  assert (Hle : forall x y : Z, 0 <= x -> 0 <= y ->
                  0 <= Z.lor x y <= x + y).
  { intros x y Hx Hy. split; [apply Z.lor_nonneg; split; assumption|].
    pose proof (Z.add_lor_land x y) as Hadd.
    assert (0 <= Z.land x y) by (apply Z.land_nonneg; left; exact Hx).
    lia. }
  rewrite !Z.shiftl_mul_pow2 by lia.
  change (2 ^ 8) with 256. change (2 ^ 16) with 65536.
  change (2 ^ 24) with 16777216.
  pose proof (Hle (b2 * 65536) (b3 * 16777216) ltac:(lia) ltac:(lia)) as Ha.
  pose proof (Hle (b1 * 256) (Z.lor (b2 * 65536) (b3 * 16777216))
                ltac:(lia) ltac:(lia)) as Hb.
  pose proof (Hle b0 (Z.lor (b1 * 256) (Z.lor (b2 * 65536) (b3 * 16777216)))
                ltac:(lia) ltac:(lia)) as Hc.
  unfold uint32_max. lia.
Qed.

(** X15: whatever twelve bytes are decoded, the three fields of the
    header lie within 32 bits; and the twelve bytes that hold the fields of
    a header least significant byte first, each field within 32 bits,
    decode to that header. *)
Theorem X15_decode_header_little_endian (b : list byte) (h : header) :
  (0 <= type (decode_header b) <= uint32_max /\
   0 <= prev (decode_header b) <= uint32_max /\
   0 <= next (decode_header b) <= uint32_max) /\
  (0 <= type h <= uint32_max ->
   0 <= prev h <= uint32_max ->
   0 <= next h <= uint32_max ->
   decode_header (header_bytes h) = h).
Proof.
  split.
  - unfold decode_header. cbn [type prev next].
    repeat split; apply le32_range.
  - apply decode_header_bytes.
Qed.

(** ** What the monotonicity check gives a clean reader *)

Section Ordered.

Context {F : Type} {P : lfp_protocol F}.
Import tapeimage.

Local Abbreviation st := (tapeimage.t (F:=F)).

(** A header parsed by a reader that is clean afterwards is appended as
    decoded, with its prev before its next. *)
Lemma parsed_clean_result (h h' : header) (s s' : st) :
  parsed h s = Return h' s' ->
  recovery s' = LFP_OK ->
  s' = appended h s /\ prev h < next h.
Proof.
  unfold parsed.
  destruct ((type h =? record) || (type h =? file)); cbn [negb andb].
  - destruct (Z.leb_spec (next h) (prev h)); [discriminate|].
    destruct (2 <=? record_index.size (index s))%nat.
    + destruct (prev h =? _).
      * intros Heq _. injection Heq as <- <-. split; [reflexivity | lia].
      * destruct (status_set (recovery s)); [discriminate|].
        intros Heq Hrec. injection Heq as <- <-. discriminate Hrec.
    + destruct (_ && _); [discriminate|].
      intros Heq _. injection Heq as <- <-. split; [reflexivity | lia].
  - destruct (status_set (recovery s)); cbn [andb]; [discriminate|].
    destruct (_ <=? _); [discriminate|].
    cbn [index set_recovery].
    destruct (2 <=? record_index.size (index s))%nat.
    + destruct (_ =? _).
      * intros Heq Hrec. injection Heq as <- <-. discriminate Hrec.
      * discriminate.
    + destruct (_ && _); [discriminate|].
      intros Heq Hrec. injection Heq as <- <-. discriminate Hrec.
Qed.

Lemma keeps_order_same (s s' : st) :
  index s' = index s -> recovery s' = recovery s -> keeps_order s s'.
Proof.
  intros Hix Hrec. split; [left; exact Hrec|].
  intros _ Ho. unfold ordered. rewrite Hix. exact Ho.
Qed.

Lemma keeps_order_trans (s1 s2 s3 : st) :
  keeps_order s1 s2 -> keeps_order s2 s3 -> keeps_order s1 s3.
Proof.
  intros [Ht1 Ho1] [Ht2 Ho2]. split; [exact (taints_trans Ht1 Ht2)|].
  intros Hc Ho. apply Ho2; [exact Hc|]. apply Ho1; [|exact Ho].
  destruct Ht2 as [Heq|[Hc2 Ht]]; congruence.
Qed.

Lemma ordered_appended (h : header) (s : st) :
  ordered s -> prev h < next h -> ordered (appended h s).
Proof.
  intros Ho Hh i Hi. unfold appended in *.
  cbn [index set_current set_index] in *. rewrite size_push_back_S in Hi.
  destruct (Nat.eq_dec i (record_index.size (index s))) as [->|Hne].
  - rewrite at_push_back_new. exact Hh.
  - rewrite at_push_back_old by lia. apply Ho. lia.
Qed.

Lemma keeps_order_parse (s : st) :
  after (read_header_from_disk s) (keeps_order s).
Proof.
  pose proof (taints_parse s) as Ht.
  rewrite read_header_from_disk_eq in *.
  destruct (p_readinto (fp s) 12) as [[err b] f'].
  destruct err; cbn in Ht |- *;
    try (apply keeps_order_same; reflexivity).
  destruct (parsed (decode_header b) (set_fp f' s)) as [h' s'|e s'|] eqn:Hp;
    cbn in Ht |- *; [| |exact I].
  - split; [exact Ht|]. intros Hc Ho.
    destruct (parsed_clean_result _ _ Hp Hc) as [-> Hlt].
    apply ordered_appended; assumption.
  - split; [exact Ht|]. intros Hc Ho.
    pose proof (parsed_spec (decode_header b) (set_fp f' s)) as Hs.
    rewrite Hp in Hs. destruct Hs as [->|[_ ->]]; [exact Ho|discriminate Hc].
Qed.

(** X16: a reader that is still clean after a read or a seek has an
    ordered index if it had one before: every indexed header has its prev
    before its next.  With the links of the index this puts the next of
    every header after the next of the header two places before it, which
    is as much order as the check on next and prev gives. *)
Theorem X16_clean_reader_ordered_by_two (fuel : nat) (len n : Z) (s : st) :
  ordered s ->
  linked s ->
  after (readinto fuel len s)
    (fun s' => recovery s' = LFP_OK -> ordered s' /\ ordered_by_two s') /\
  after (seek fuel n s)
    (fun s' => recovery s' = LFP_OK -> ordered s' /\ ordered_by_two s').
Proof.
  intros Ho Hl.
  assert (Hby2 : forall s' : st, linked s' -> ordered s' -> ordered_by_two s').
  { intros s' [_ Hlink] Ho' i Hi. rewrite <- (Hlink i Hi). apply Ho'. exact Hi. }
  assert (Hsame : forall (s0 : st), keeps_order s0 s0)
    by (intros; apply keeps_order_same; reflexivity).
  pose proof (@kept_readinto _ _ keeps_order Hsame keeps_order_trans
                ltac:(intros; apply keeps_order_same; reflexivity)
                ltac:(intros; apply keeps_order_same; reflexivity)
                keeps_order_parse fuel len s) as Hr.
  pose proof (@kept_seek _ _ keeps_order Hsame keeps_order_trans
                ltac:(intros; apply keeps_order_same; reflexivity)
                ltac:(intros; apply keeps_order_same; reflexivity)
                keeps_order_parse fuel n s) as Hk.
  pose proof (@kept_readinto _ _ (fun s s' => linked s -> linked s')
                (fun _ H => H) (fun _ _ _ H1 H2 H => H2 (H1 H))
                (fun _ _ H => H) (fun _ _ H => H)
                linked_parse fuel len s) as Hlr.
  pose proof (@kept_seek _ _ (fun s s' => linked s -> linked s')
                (fun _ H => H) (fun _ _ _ H1 H2 H => H2 (H1 H))
                (fun _ _ H => H) (fun _ _ H => H)
                linked_parse fuel n s) as Hlk.
  split.
  - destruct (readinto fuel len s) as [a s'|e s'|]; cbn in *; auto;
      intros Hc; destruct Hr as [_ Hord]; split; auto.
  - destruct (seek fuel n s) as [a s'|e s'|]; cbn in *; auto;
      intros Hc; destruct Hk as [_ Hord]; split; auto.
Qed.

End Ordered.

Lemma abc_opened_ordered : ordered abc_opened.
Proof.
  intros i Hi. cbn in Hi. destruct i as [|i]; [vm_compute; reflexivity | lia].
Qed.

(** ** Seek to the position that tell reports *)

Section SeekToTell.

Context {F : Type} {P : lfp_protocol F}.
Import tapeimage.

Local Abbreviation st := (tapeimage.t (F:=F)).







End SeekToTell.



(** ** Nothing is indexed after a file-mark *)

Section MarkLast.

Context {F : Type} {P : lfp_protocol F}.
Import tapeimage.

Local Abbreviation st := (tapeimage.t (F:=F)).

Lemma after_bind (Q : st -> Prop) {A B : Type} (m : M st A) (k : A -> M st B)
    (s : st) :
  after (m s) Q ->
  (forall a s', m s = Return a s' -> Q s' -> after (k a s') Q) ->
  after (bind m k s) Q.
Proof.
  unfold bind. intros Hm Hk.
  destruct (m s) as [a s'|e s'|] eqn:Hms; cbn in *; auto.
Qed.

(** Parsing a header keeps the file-marks last when the header it is
    appended after is not a file-mark. *)
Lemma mark_last_parse (s : st) :
  mark_last s ->
  ((0 < record_index.size (index s))%nat ->
   type (record_index.back (index s)) <> file) ->
  after (read_header_from_disk s) mark_last.
Proof.
  intros Hm Hback.
  pose proof (read_header_from_disk_spec s) as Hs.
  destruct (read_header_from_disk s) as [h' s'|e s'|]; cbn; [| |exact I].
  - destruct Hs as (f' & s2 & Hs2 & -> & _).
    assert (Hix : index s2 = index s)
      by (destruct Hs2 as [->|[_ ->]]; reflexivity).
    intros i Hi. unfold appended in *.
    cbn [index set_current set_index] in *. rewrite Hix in *.
    rewrite size_push_back_S in Hi.
    rewrite at_push_back_old by lia.
    destruct (Nat.eq_dec (S i) (record_index.size (index s))) as [Heq|Hne].
    + unfold record_index.back in Hback.
      replace i with (record_index.size (index s) - 1)%nat by lia.
      apply Hback. lia.
    + apply Hm. lia.
  - destruct Hs as (f' & [->|[_ ->]]); exact Hm.
Qed.

Lemma mark_last_fp_seek (off : Z) (s : st) :
  mark_last s -> after (fp_seek off s) mark_last.
Proof.
  intros Hm. unfold fp_seek. destruct (p_seek (fp s) off); cbn; exact Hm.
Qed.

(** [read_header] is reached with the read head on a record that is not
    a file-mark: the loop has tested [eof] first. *)
Lemma mark_last_read_header (s : st) :
  mark_last s -> eof s = false ->
  after (read_header (current s) s) mark_last.
Proof.
  intros Hm Heof. unfold read_header.
  apply after_bind; [exact Hm|].
  intros ix s' Heq _. injection Heq as <- <-.
  destruct (Nat.eqb_spec (S (read_head.pos (current s)))
              (record_index.size (index s))) as [Hlast|Hmore].
  - apply after_bind.
    + apply mark_last_parse; [exact Hm|]. intros _.
      unfold record_index.back. rewrite <- Hlast.
      replace (S (read_head.pos (current s)) - 1)%nat
        with (read_head.pos (current s)) by lia.
      apply Z.eqb_neq. exact Heof.
    + intros h s' _ Hm'. exact Hm'.
  - apply after_bind; [apply mark_last_fp_seek; exact Hm|].
    intros [] s' Hseek _. cbn.
    unfold fp_seek in Hseek. destruct (p_seek (fp s) _); [|discriminate].
    injection Hseek as <-. exact Hm.
Qed.

Lemma mark_last_readinto_loop (fuel : nat) :
  forall (len bytes_read : Z) (dst : list byte) (s : st),
    mark_last s ->
    after (readinto_loop fuel len bytes_read dst s) mark_last.
Proof.
  induction fuel as [|fuel IH]; intros len br dst s Hm; [exact I|].
  cbn [readinto_loop].
  apply after_bind; [exact Hm|].
  intros at_eof s0 Heq _. injection Heq as <- <-.
  destruct (eof s) eqn:Heof; [exact Hm|].
  apply after_bind; [exact Hm|].
  intros cur s0 Heq _. injection Heq as <- <-.
  destruct (read_head.exhausted (current s)).
  - apply after_bind; [apply mark_last_read_header; assumption|].
    intros [] s' _ Hm'. apply IH. exact Hm'.
  - unfold fp_readinto, bind.
    destruct (p_readinto (fp s) _) as [[err data] f'].
    unfold read_head.move.
    destruct (_ <? 0); [exact Hm|].
    cbn [modify].
    assert (Hm' : mark_last
                    (set_current
                       (read_head.mk (read_head.pos (current s))
                          (read_head.remaining (current s)
                           - Z.of_nat (length data)))
                       (set_fp f' s))) by exact Hm.
    destruct err; try exact Hm';
      try (destruct (Z.of_nat (length data) =? len);
           [exact Hm' | apply IH; exact Hm']).
    destruct (negb _); exact Hm'.
Qed.

(** The chase parses a further header only after it has seen that the
    last one is not a file-mark. *)
Lemma mark_last_seek_chase (fuel : nat) :
  forall (n : Z) (s : st),
    mark_last s -> after (seek_chase fuel n s) mark_last.
Proof.
  induction fuel as [|fuel IH]; intros n s Hm; [exact I|].
  cbn [seek_chase]. unfold bind at 1 2, gets.
  destruct (_ <=? _).
  - unfold bind, fp_seek, modify. destruct (p_seek (fp s) _); exact Hm.
  - destruct (Z.eqb_spec (type (record_index.at_ (index s)
                                  (record_index.size (index s) - 1))) file)
      as [Hfile|Hdata]; [exact Hm|].
    apply after_bind; [apply mark_last_fp_seek; exact Hm|].
    intros [] s1 Hseek Hm1.
    assert (Hix : index s1 = index s).
    { unfold fp_seek in Hseek. destruct (p_seek (fp s) _); [|discriminate].
      injection Hseek as <-. reflexivity. }
    apply after_bind.
    + apply mark_last_parse; [exact Hm1|]. intros _.
      unfold record_index.back. rewrite Hix. exact Hdata.
    + intros h s2 _ Hm2. apply IH. exact Hm2.
Qed.

Lemma mark_last_seek (fuel : nat) (n : Z) (s : st) :
  mark_last s -> after (seek fuel n s) mark_last.
Proof.
  intros Hm. unfold seek. destruct (uint32_max <? n); [exact Hm|].
  unfold bind at 1, gets.
  destruct (already_indexed s n).
  - unfold seek_with_index, bind, gets, modify, fp_seek.
    destruct (record_index.find (index s) n (read_head.pos (current s)));
      [exact Hm|].
    destruct (p_seek (fp s) _); exact Hm.
  - unfold bind at 1 2, gets, modify.
    apply mark_last_seek_chase. exact Hm.
Qed.

(** X18: no header is ever indexed after a file-mark.  The index the
    constructor leaves has no file-mark but possibly its last header, and
    reads and seeks, returning or throwing, keep it so: a read stops on a
    file-mark before it parses, and a seek that chases headers stops at
    one. *)
Theorem X18_file_mark_is_last (f : F) (fuel : nat) (len n : Z) (s : st) :
  after (ctor f) mark_last /\
  (mark_last s ->
   after (readinto fuel len s) mark_last /\
   after (seek fuel n s) mark_last).
Proof.
  split.
  - unfold ctor. apply mark_last_parse.
    + intros i Hi. cbn in Hi. lia.
    + intros Hsz. cbn in Hsz. lia.
  - intros Hm. split.
    + unfold readinto, readinto_private.
      apply after_bind; [apply mark_last_readinto_loop; exact Hm|].
      intros [n0 dst] s' _ Hm'. exact Hm'.
    + apply mark_last_seek. exact Hm.
Qed.

End MarkLast.

(** ** The properties above on the scenarios *)

Lemma abc_opened_linked : linked abc_opened.
Proof.
  split; intros i Hi; cbn in Hi.
  - destruct i as [|i]; [left; reflexivity | lia].
  - lia.
Qed.

Lemma abc_opened_on_record : on_record abc_opened.
Proof. split; [cbn; lia | reflexivity]. Qed.

(** X2 on scenario 1 with the first header's type set to 7: the read of 4
    bytes and a seek to offset 1 both leave the tainted reader tainted. *)
Lemma X2_taint_only_grows_witness :
  after (tapeimage.readinto 7 4 type7_opened)
    (fun s' => tapeimage.recovery s' = tapeimage.recovery type7_opened) /\
  after (tapeimage.seek 7 1 type7_opened)
    (fun s' => tapeimage.recovery s' = tapeimage.recovery type7_opened).
Proof.
  exact (proj2 (proj2 (@X2_taint_only_grows _ _ 7 4 1 type7_opened)) eq_refl).
Defined.

(** X3 on scenario 1: the index is linked after opening, and still after
    the read of 4 bytes and after a seek to offset 2. *)
Lemma X3_index_stays_linked_witness :
  after (tapeimage.ctor (memfile.open scenario.abc)) linked /\
  after (tapeimage.readinto 7 4 abc_opened) linked /\
  after (tapeimage.seek 7 2 abc_opened) linked.
Proof.
  destruct (@X3_index_stays_linked _ _ (memfile.open scenario.abc) 7 4 2
              abc_opened) as [Hctor Hops].
  split; [exact Hctor | exact (Hops abc_opened_linked)].
Defined.

(** X4 on scenario 1: the read head is on an indexed record after the
    read of 4 bytes and after a seek to offset 2. *)
Lemma X4_read_head_stays_indexed_witness :
  after (tapeimage.readinto 7 4 abc_opened) on_record /\
  after (tapeimage.seek 7 2 abc_opened) on_record.
Proof.
  exact (proj2 (@X4_read_head_stays_indexed _ _ (memfile.open scenario.abc)
                  7 4 2 abc_opened) abc_opened_on_record).
Defined.

Lemma abc_indexed_in_record_1 : in_record abc_indexed 1 2.
Proof.
  repeat split; first [cbn; lia | vm_compute; first [reflexivity | discriminate]].
Qed.

(** X5 on scenario 1 fully indexed: offset 2 is found in the second
    record from a hint on the file-mark. *)
Lemma X5_find_locates_record_witness :
  record_index.find (tapeimage.index abc_indexed) 2 3 = inr 1%nat.
Proof.
  apply (@X5_find_locates_record _ abc_indexed 1 3 2 abc_indexed_valid
           abc_indexed_int_sized abc_indexed_in_record_1).
  cbn. lia.
Defined.

(** X6 on scenario 1 fully indexed: offset 4 is past the last record. *)
Lemma X6_find_beyond_index_witness :
  record_index.find (tapeimage.index abc_indexed) 4 0 = inl logic_error.
Proof.
  apply (@X6_find_beyond_index _ abc_indexed 0 4 abc_indexed_valid
           abc_indexed_int_sized).
  - cbn. lia.
  - vm_compute. reflexivity.
Defined.

(** X7 on scenario 1 fully indexed: a seek to offset 2 puts the inner
    stream at byte 26 and the read head at the end of the second
    record. *)
Lemma X7_seek_lands_in_record_witness :
  exists f' : memfile.t,
    p_seek (tapeimage.fp abc_indexed) (2 + 12 * (Z.of_nat 1 + 1) + 0) = Some f' /\
    tapeimage.seek 0 2 abc_indexed
    = Return tt
        (tapeimage.set_current
           (read_head.mk 1 (record_end abc_indexed 1 - 2))
           (tapeimage.set_fp f' abc_indexed)) /\
    valid (tapeimage.set_current
             (read_head.mk 1 (record_end abc_indexed 1 - 2))
             (tapeimage.set_fp f' abc_indexed)).
Proof.
  exact (@X7_seek_lands_in_record _ _ 0 abc_indexed 1 2 abc_indexed_valid
           abc_indexed_int_sized (memfile_seekable _) abc_indexed_in_record_1).
Defined.

(** X8 on scenario 1 fully indexed: a seek to offset 1000, then a read of
    1 byte. *)
Lemma X8_seek_past_file_mark_witness :
  tapeimage.seek 1 1000 abc_indexed
  = Return tt (tapeimage.set_current (read_head.mk (4 - 1) 0) abc_indexed) /\
  tapeimage.readinto 1 1
    (tapeimage.set_current (read_head.mk (4 - 1) 0) abc_indexed)
  = Return (LFP_EOF, 0, [])
      (tapeimage.set_current (read_head.mk (4 - 1) 0) abc_indexed).
Proof.
  apply (@X8_seek_past_file_mark _ _ 0 0 abc_indexed 1000 1).
  - cbn. lia.
  - reflexivity.
  - vm_compute. reflexivity.
  - vm_compute. discriminate.
Defined.

(** X9 on scenario 1 fully indexed: two reads in a row on the
    file-mark. *)
Lemma X9_read_at_file_mark_witness :
  bind (tapeimage.readinto 1 4) (fun _ => tapeimage.readinto 1 2) abc_indexed
  = Return (LFP_EOF, 0, []) abc_indexed.
Proof.
  exact (@X9_read_at_file_mark _ _ 0 0 4 2 abc_indexed eq_refl).
Defined.

(** X10 on a stream that ends after its one record: the read that has
    to parse the next header throws unexpected EOF. *)
Lemma X10_header_read_errors_witness :
  tapeimage.read_header_from_disk single_exhausted
  = Throw unexpected_eof
      (tapeimage.set_fp (memfile.mk scenario.single 13) single_exhausted) /\
  tapeimage.readinto 1 1 single_exhausted
  = Throw unexpected_eof
      (tapeimage.set_fp (memfile.mk scenario.single 13) single_exhausted).
Proof.
  destruct (@X10_header_read_errors _ memfile.protocol 0 1 single_exhausted LFP_EOF []
              (memfile.mk scenario.single 13) ltac:(vm_compute; reflexivity)
              ltac:(discriminate))
    as [Hparse Hread].
  split; [exact Hparse|].
  apply Hread; reflexivity.
Defined.

(** X11 on scenario 1: the second record has length 1 whether it is
    entered from the index or by parsing its header. *)
Lemma X11_record_length_agrees_witness :
  read_head.next_record (tapeimage.index abc_indexed) (read_head.mk 0 0)
  = read_head.mk 1 (body_length abc_indexed 1) /\
  tapeimage.current abc_at_b
  = read_head.mk 1 (body_length abc_at_b 1).
Proof.
  destruct (@X11_record_length_agrees _ _ abc_indexed abc_indexed 0 0 header0)
    as [Hwalk _].
  destruct (@X11_record_length_agrees _ _ abc_after_a abc_at_b 0 0
              (mkheader 0 0 26)) as [_ Hparse].
  split.
  - apply Hwalk; [exact abc_indexed_valid | cbn; lia].
  - apply Hparse; [reflexivity | cbn; lia | vm_compute; split; discriminate].
Defined.

(** X12 over the trickling stream: a read of 2 bytes gets one byte and
    OK-incomplete. *)
Lemma X12_partial_read_passes_through_witness :
  tapeimage.readinto_loop 1 2 0 [] trickle_opened
  = Return (0 + 1, [] ++ [x41]) trickle_read /\
  tapeimage.readinto 1 2 trickle_opened
  = Return (LFP_OKINCOMPLETE, 1, [x41]) trickle_read.
Proof.
  apply (@X12_partial_read_passes_through _ _ 0 2 0 [] trickle_opened [x41]
           (tricklefile.mk two_bytes 13) 1 trickle_read);
    try reflexivity.
  cbn. lia.
Defined.

(** X13 on scenario 1: the read of 4 bytes returns 3 and takes [tell]
    from 0 to 3. *)
Lemma X13_tell_advances_by_count_witness :
  tapeimage.tell abc_indexed = tapeimage.tell abc_opened + 3.
Proof.
  apply (@X13_tell_advances_by_count _ _ 7 4 abc_opened abc_indexed LFP_EOF 3
           [x41; x42; x43]).
  - exact abc_opened_on_record.
  - vm_compute. reflexivity.
  - exact abc_indexed_valid.
  - exact abc_indexed_int_sized.
Defined.

(** X14 on the records "A", "B", "C": the image written out is that of
    scenario 1, and a read of 4 bytes returns "ABC" with EOF. *)
Lemma X14_reads_back_written_image_witness :
  tif_image 0 0 [[x41]; [x42]; [x43]] = scenario.abc /\
  exists s0 s',
    lfp_tapeimage_open
      (Some (memfile.open (tif_image 0 0 [[x41]; [x42]; [x43]])))
    = (Some s0, None) /\
    tapeimage.readinto 7 4 s0
    = Return (if 4 <=? lenZ (payload [[x41]; [x42]; [x43]])
              then LFP_OK else LFP_EOF,
              Z.min 4 (lenZ (payload [[x41]; [x42]; [x43]])),
              firstn (Z.to_nat 4) (payload [[x41]; [x42]; [x43]])) s'.
Proof.
  split; [vm_compute; reflexivity|].
  apply (@X14_reads_back_written_image [[x41]; [x42]; [x43]] 4 7).
  - vm_compute. discriminate.
  - lia.
  - cbn. lia.
Defined.

(** X15 on the file-mark header of scenario 1. *)
Lemma X15_decode_header_little_endian_witness :
  decode_header (header_bytes (mkheader 1 26 51)) = mkheader 1 26 51.
Proof.
  apply (proj2 (@X15_decode_header_little_endian [] (mkheader 1 26 51)));
    cbn; unfold uint32_max; lia.
Defined.

(** X16 on scenario 1: after the read of 4 bytes and after a seek to
    offset 2 the clean reader's index is ordered. *)
Lemma X16_clean_reader_ordered_by_two_witness :
  after (tapeimage.readinto 7 4 abc_opened)
    (fun s' => tapeimage.recovery s' = LFP_OK ->
               ordered s' /\ ordered_by_two s') /\
  after (tapeimage.seek 7 2 abc_opened)
    (fun s' => tapeimage.recovery s' = LFP_OK ->
               ordered s' /\ ordered_by_two s').
Proof.
  exact (@X16_clean_reader_ordered_by_two _ _ 7 4 2 abc_opened
           abc_opened_ordered abc_opened_linked).
Defined.

(** X17 at record position 2 with zero = 5: offset 50 goes to 91 and
    back, and 91 is 50 + (12 * 3 + 5). *)
Lemma X17_address_map_within_int_witness :
  address_map.logical (address_map.mk 5) (address_map.physical (address_map.mk 5) 50 2) 2 = 50 /\
  address_map.physical (address_map.mk 5) (address_map.logical (address_map.mk 5) 50 2) 2 = 50 /\
  address_map.logical (address_map.mk 5) 50 2 = 50 - (12 * (2 + 1) + 5) /\
  address_map.physical (address_map.mk 5) 50 2 = 50 + (12 * (2 + 1) + 5).
Proof.
  destruct (@X17_address_map_within_int (address_map.mk 5) 2 50)
    as (Hlp & Hpl & Hexact).
  split; [exact Hlp|]. split; [exact Hpl|].
  apply Hexact. unfold max_int_records. lia.
Defined.

Lemma abc_opened_mark_last : mark_last abc_opened.
Proof. intros i Hi. cbn in Hi. lia. Qed.

(** X18 on scenario 1: after opening, after the read of 4 bytes, which
    indexes the file-mark, and after a seek to offset 2, the file-mark is
    the last header of the index or not in it. *)
Lemma X18_file_mark_is_last_witness :
  after (tapeimage.ctor (memfile.open scenario.abc)) mark_last /\
  after (tapeimage.readinto 7 4 abc_opened) mark_last /\
  after (tapeimage.seek 7 2 abc_opened) mark_last.
Proof.
  destruct (@X18_file_mark_is_last _ _ (memfile.open scenario.abc) 7 4 2
              abc_opened) as [Hctor Hops].
  split; [exact Hctor | exact (Hops abc_opened_mark_last)].
Defined.
